(** * FastAPI-WS-test: the connection registry and the graceful-drain lifecycle

    A shallow embedding of [src/main.py] and the properties of its
    connection registry ([ConnectionManager]), shutdown coordinator
    ([GracefulShutdownManager]), notification scheduler
    ([notification_broadcaster]) and session handler ([websocket_endpoint]).

    Conventions of the embedding.
    - A [WebSocket] object is compared by identity in Python; here it is a
      natural number naming the object.
    - [self.active_connections] is a Python [set]; here a [gset nat].
    - Every [await] on the transport (accept, send_json, receive_text) and
      every [asyncio.sleep] has its outcome chosen by the environment: it
      returns, or it raises.
    - A [timedelta] is its number of microseconds; building one outside the
      range of [timedelta] raises [OverflowError].
    - Each function returns, next to its result, the list of the transport
      and registry operations it performed, in program order.
    - [logger] calls do not touch the state and are left out. *)

From stdpp Require Import base gmap sets list strings.
From Stdlib Require Import ZArith Lia DecimalString.

#[local] Set Warnings "-clear-no-such-hyp".

Local Open Scope Z_scope.
Local Open Scope nat_scope.

(** * Part I: the program *)

(** ** Exceptions, JSON messages, events *)

(** The exceptions the code distinguishes.  [CancelledError] derives from
    [BaseException], the others from [Exception]; [OverflowError] is what
    [timedelta] raises beyond its range; [RuntimeError] stands for any other
    [Exception]. *)
Inductive exn : Type :=
| WebSocketDisconnect
| TimeoutError
| CancelledError
| OverflowError
| RuntimeError.

Global Instance exn_eq_dec : EqDecision exn.
Proof. solve_decision. Defined.

(** [isinstance(e, Exception)] *)
Definition is_Exception (e : exn) : bool :=
  match e with
  | CancelledError => false
  | _ => true
  end.

Inductive result (A : Type) : Type :=
| Returns (a : A)
| Raises (e : exn).
Arguments Returns {A} a.
Arguments Raises {A} e.

Inductive jvalue : Type :=
| JStr (s : string)
| JInt (n : nat).

Global Instance jvalue_eq_dec : EqDecision jvalue.
Proof. solve_decision. Defined.

(** A dict literal, keys in the order they are written. *)
Abbreviation dict := (list (string * jvalue)).

(** [dict.get(key)] *)
Fixpoint get (key : string) (d : dict) : option jvalue :=
  match d with
  | [] => None
  | (k, v) :: rest => if decide (k = key) then Some v else get key rest
  end.


(** [str(n)] for a non-negative integer. *)
Definition str (n : nat) : string := NilZero.string_of_uint (Nat.to_uint n).

Inductive event : Type :=
| Accept (websocket : nat) (r : option exn)
| Acquire
| Release
| Add (websocket : nat)
| Discard (websocket : nat)
| Copy (connections : gset nat)
| Subtract (disconnected : gset nat)
| SendJson (websocket : nat) (message : dict) (r : option exn)
| ReceiveText (websocket : nat) (r : string + exn)
| ReadCount (connection_count : nat)
| Sleep (seconds : nat)
| SetEvent.

Global Instance event_eq_dec : EqDecision event.
Proof. solve_decision. Defined.

(** ** class ConnectionManager, one call run on its own *)

Module ConnectionManager.

(** [connect]: the handshake is awaited first; if it raises, the exception
    leaves [connect] before the lock is touched. *)
Definition connect (accept_result : option exn) (websocket : nat)
    (active_connections : gset nat) : result unit * gset nat * list event :=
  match accept_result with
  | Some e => (Raises e, active_connections, [Accept websocket (Some e)])
  | None =>
      (Returns (), {[websocket]} ∪ active_connections,
       [Accept websocket None; Acquire; Add websocket; Release])
  end.

(** [disconnect]: [set.discard] never raises. *)
Definition disconnect (websocket : nat) (active_connections : gset nat)
    : result unit * gset nat * list event :=
  (Returns (), active_connections ∖ {[websocket]},
   [Acquire; Discard websocket; Release]).

(** The [for connection in connections] loop of [broadcast].
    [send_json_result connection] is what [connection.send_json(message)]
    does; [except Exception] catches what [is_Exception] accepts and lets
    the rest leave the loop. *)
Fixpoint send_all (send_json_result : nat → option exn) (message : dict)
    (connections : list nat) (disconnected : gset nat)
    : result (gset nat) * list event :=
  match connections with
  | [] => (Returns disconnected, [])
  | connection :: rest =>
      match send_json_result connection with
      | None =>
          let '(r, evs) := send_all send_json_result message rest disconnected in
          (r, SendJson connection message None :: evs)
      | Some e =>
          if is_Exception e then
            let '(r, evs) :=
              send_all send_json_result message rest ({[connection]} ∪ disconnected) in
            (r, SendJson connection message (Some e) :: evs)
          else (Raises e, [SendJson connection message (Some e)])
      end
  end.

(** [broadcast].  A Python set is iterated in an order the language does
    not fix; [elements] is one such order. *)
Definition broadcast (send_json_result : nat → option exn) (message : dict)
    (active_connections : gset nat) : result unit * gset nat * list event :=
  if decide (active_connections = ∅) then (Returns (), active_connections, [])
  else
    let connections := active_connections in
    let snapshot := [Acquire; Copy connections; Release] in
    match send_all send_json_result message (elements connections) ∅ with
    | (Raises e, evs) => (Raises e, active_connections, snapshot ++ evs)
    | (Returns disconnected, evs) =>
        if decide (disconnected = ∅) then
          (Returns (), active_connections, snapshot ++ evs)
        else
          (Returns (), active_connections ∖ disconnected,
           snapshot ++ evs ++ [Acquire; Subtract disconnected; Release])
    end.

(** The [connection_count] property. *)
Definition connection_count (active_connections : gset nat) : nat :=
  size active_connections.

End ConnectionManager.

(** ** The message schema *)

Definition welcome (timestamp : string) : dict :=
  [("type", JStr "welcome");
   ("message", JStr "Connected to WebSocket server");
   ("timestamp", JStr timestamp)]%string.

Definition echo (data timestamp : string) : dict :=
  [("type", JStr "echo");
   ("message", JStr ("Server received: " +:+ data));
   ("timestamp", JStr timestamp)]%string.

Definition ping (timestamp : string) : dict :=
  [("type", JStr "ping");
   ("timestamp", JStr timestamp)]%string.

Definition notification (counter : nat) (timestamp : string)
    (connection_count : nat) : dict :=
  [("type", JStr "notification");
   ("message", JStr ("Periodic notification #" +:+ str counter));
   ("timestamp", JStr timestamp);
   ("active_connections", JInt connection_count)]%string.

(** ** websocket_endpoint *)

Module Session.

(** What the transport does to one connection.  [send_json_result i] is
    the outcome of the handler's [i]-th [send_json] call and
    [receive_text_result j] that of its [j]-th
    [wait_for(receive_text(), timeout=60.0)], which returns the text or
    raises ([TimeoutError] when the connection was idle for 60 seconds).
    The handler evaluates [datetime.now().isoformat()] once for each
    message it builds: [now_isoformat i] is the value for the [i]-th. *)
Record transport : Type := {
  accept_result : option exn;
  send_json_result : nat → option exn;
  receive_text_result : nat → string + exn;
  now_isoformat : nat → string
}.

(** The [while True] loop, [fuel] iterations of it; [sent] and [received]
    count the calls made so far.  [None]: still in the loop; [Some e]:
    exception [e] left the loop.  The loop has no other exit. *)
Fixpoint receive_loop (t : transport) (websocket : nat)
    (fuel sent received : nat) : option exn * list event :=
  match fuel with
  | 0 => (None, [])
  | S fuel =>
      (* the handler of [except asyncio.TimeoutError] *)
      let heartbeat (sent : nat) (before : list event) :=
        let message := ping (now_isoformat t sent) in
        match send_json_result t sent with
        | None =>
            let '(x, evs) := receive_loop t websocket fuel (S sent) (S received) in
            (x, before ++ SendJson websocket message None :: evs)
        | Some e => (Some e, before ++ [SendJson websocket message (Some e)])
        end in
      let r := receive_text_result t received in
      match r with
      | inl data =>
          let message := echo data (now_isoformat t sent) in
          match send_json_result t sent with
          | None =>
              let '(x, evs) := receive_loop t websocket fuel (S sent) (S received) in
              (x, ReceiveText websocket r :: SendJson websocket message None :: evs)
          | Some TimeoutError =>
              heartbeat (S sent)
                [ReceiveText websocket r;
                 SendJson websocket message (Some TimeoutError)]
          | Some e =>
              (Some e, [ReceiveText websocket r; SendJson websocket message (Some e)])
          end
      | inr TimeoutError => heartbeat sent [ReceiveText websocket r]
      | inr e => (Some e, [ReceiveText websocket r])
      end
  end.

(** The body of the [try]: the welcome message, then the loop. *)
Definition try_body (t : transport) (websocket : nat) (fuel : nat)
    : option exn * list event :=
  let message := welcome (now_isoformat t 0) in
  match send_json_result t 0 with
  | Some e => (Some e, [SendJson websocket message (Some e)])
  | None =>
      let '(x, evs) := receive_loop t websocket fuel 1 0 in
      (x, SendJson websocket message None :: evs)
  end.

(** [websocket_endpoint].  [None]: the handler is still in its loop after
    [fuel] iterations.  [Some (Returns ())]: an [except] clause caught the
    exception and the handler returned.  [Some (Raises e)]: [e] left the
    handler.  [connect] is called before the [try], [disconnect] in its
    [finally]. *)
Definition websocket_endpoint (t : transport) (websocket : nat) (fuel : nat)
    (active_connections : gset nat)
    : option (result unit) * gset nat * list event :=
  match ConnectionManager.connect (accept_result t) websocket active_connections with
  | (Raises e, active_connections, evs) => (Some (Raises e), active_connections, evs)
  | (Returns _, active_connections, evs) =>
      match try_body t websocket fuel with
      | (None, body) => (None, active_connections, evs ++ body)
      | (Some e, body) =>
          let '(_, active_connections, cleanup) :=
            ConnectionManager.disconnect websocket active_connections in
          (Some (if is_Exception e then Returns () else Raises e),
           active_connections, evs ++ body ++ cleanup)
      end
  end.

End Session.

(** ** class GracefulShutdownManager *)

Module GracefulShutdownManager.

Record t : Type := {
  timeout_minutes : Z;
  shutdown_initiated : bool;
  shutdown_event : bool
}.

Definition init (timeout_minutes : Z) : t :=
  {| timeout_minutes := timeout_minutes;
     shutdown_initiated := false;
     shutdown_event := false |}.

Definition initiate_shutdown (self : t) : t :=
  {| timeout_minutes := timeout_minutes self;
     shutdown_initiated := true;
     shutdown_event := shutdown_event self |}.

(** What [wait_for_shutdown] observes.  [now k] is the value of the [k]-th
    [datetime.now()], in microseconds (the resolution of [datetime]);
    the call numbered 0 sets [start_time], the call numbered [k+1] is the
    one of the loop's [k]-th iteration.  [connection_count k] is what
    [self.manager.connection_count] reads in that iteration, and
    [sleep_result k] what its [await asyncio.sleep(5)] does: it returns, or
    an exception (the cancellation of the waiting task) is raised there. *)
Record observations : Type := {
  now : nat → Z;
  connection_count : nat → nat;
  sleep_result : nat → option exn
}.

(** A [timedelta] is a whole number of microseconds from [timedelta.min],
    -999999999 days, to [timedelta.max], 999999999 days 23:59:59.999999.
    The constructor and the arithmetic raise [OverflowError] beyond. *)
Definition timedelta (microseconds : Z) : result Z :=
  if decide (-999999999 * 86400000000 ≤ microseconds
             ≤ 999999999 * 86400000000 + 86399999999)%Z
  then Returns microseconds
  else Raises OverflowError.

(** [timedelta(minutes=m)], and [asyncio.sleep(5)], in microseconds. *)
Definition minutes (m : Z) : result Z := timedelta (m * 60000000).
Definition poll_interval : Z := 5000000%Z.

Inductive exit_path : Type := Graceful | Forced.

(** The [while True] loop from its [k]-th iteration on, at most [fuel]
    iterations.  [Some (Returns path, k)]: the [break] of that path was taken
    in iteration [k]; [Some (Raises e, k)]: [e] left the loop in iteration
    [k], raised by [timeout - elapsed] or by the sleep; [None]: still in the
    loop. *)
Fixpoint poll_loop (o : observations) (timeout start_time : Z)
    (fuel k : nat) : option (result exit_path * nat) * list event :=
  match fuel with
  | 0 => (None, [])
  | S fuel =>
      let connection_count := connection_count o k in
      let elapsed := (now o (S k) - start_time)%Z in
      match timedelta (timeout - elapsed) with
      | Raises e => (Some (Raises e, k), [ReadCount connection_count])
      | Returns remaining =>
          if decide (connection_count = 0) then
            (Some (Returns Graceful, k), [ReadCount connection_count])
          else if decide (timeout ≤ elapsed)%Z then
            (Some (Returns Forced, k), [ReadCount connection_count])
          else
            match sleep_result o k with
            | Some e =>
                (Some (Raises e, k), [ReadCount connection_count; Sleep 5])
            | None =>
                let '(r, evs) := poll_loop o timeout start_time fuel (S k) in
                (r, ReadCount connection_count :: Sleep 5 :: evs)
            end
      end
  end.

(** [wait_for_shutdown].  [None]: still waiting after [fuel] iterations.
    [Some (self, Returns path)]: returned, with [path = None] for the early
    [return]; [Some (self, Raises e)]: left by the exception [e], before
    [self.shutdown_event.set()]. *)
Definition wait_for_shutdown (self : t) (o : observations) (fuel : nat)
    : option (t * result (option (exit_path * nat))) * list event :=
  if negb (shutdown_initiated self) then (Some (self, Returns None), [])
  else
    let start_time := now o 0 in
    match minutes (timeout_minutes self) with
    | Raises e => (Some (self, Raises e), [])
    | Returns timeout =>
        match poll_loop o timeout start_time fuel 0 with
        | (None, evs) => (None, evs)
        | (Some (Raises e, _), evs) => (Some (self, Raises e), evs)
        | (Some (Returns path, k), evs) =>
            (Some ({| timeout_minutes := timeout_minutes self;
                      shutdown_initiated := shutdown_initiated self;
                      shutdown_event := true |}, Returns (Some (path, k))),
             evs ++ [SetEvent])
        end
    end.

End GracefulShutdownManager.

(** ** notification_broadcaster *)

Module Broadcaster.

(** What one iteration of the loop meets: the value of
    [shutdown_manager.shutdown_initiated] at the loop test, the outcome of
    [asyncio.sleep(10)], what the other tasks did to the registry while
    this one slept, the clock, and the outcome of each send. *)
Record iteration : Type := {
  shutdown_initiated : bool;
  sleep_result : option exn;
  churn : gset nat → gset nat;
  now_isoformat : string;
  send_json_result : nat → option exn
}.

(** One broadcast tick: the counter, the payload built, and the registry
    as it was when the payload was built. *)
Record tick : Type := {
  tick_counter : nat;
  tick_message : dict;
  tick_registry : gset nat
}.

Inductive loop_state : Type :=
| Stopped      (* the [while] test saw the flag *)
| Cancelled    (* [except asyncio.CancelledError: break] *)
| Looping.     (* still in the loop *)

Fixpoint notification_broadcaster (counter : nat) (its : list iteration)
    (active_connections : gset nat)
    : loop_state * nat * gset nat * list tick :=
  match its with
  | [] => (Looping, counter, active_connections, [])
  | it :: its =>
      if shutdown_initiated it then (Stopped, counter, active_connections, [])
      else
        let active_connections := churn it active_connections in
        match sleep_result it with
        | Some e =>
            if is_Exception e then
              notification_broadcaster counter its active_connections
            else (Cancelled, counter, active_connections, [])
        | None =>
            let counter := counter + 1 in
            let message :=
              notification counter (now_isoformat it)
                (ConnectionManager.connection_count active_connections) in
            let this :=
              {| tick_counter := counter; tick_message := message;
                 tick_registry := active_connections |} in
            match ConnectionManager.broadcast (send_json_result it) message
                    active_connections with
            | (Returns _, active_connections, _) =>
                let '(s, c, a, ticks) :=
                  notification_broadcaster counter its active_connections in
                (s, c, a, this :: ticks)
            | (Raises e, active_connections, _) =>
                if is_Exception e then
                  let '(s, c, a, ticks) :=
                    notification_broadcaster counter its active_connections in
                  (s, c, a, this :: ticks)
                else (Cancelled, counter, active_connections, [this])
            end
        end
  end.

End Broadcaster.

(** ** ConnectionManager calls in flight, interleaved

    The calls of [connect], [disconnect] and [broadcast] that are in progress
    at some moment, each stopped at one of its statements, and the registry
    they share.  One step runs one statement of one call. *)

Module Tasks.

(** Where a call stands: the statement it runs next. *)
Inductive pc : Type :=
| ConnectAccept (websocket : nat)      (* await websocket.accept() *)
| ConnectAcquire (websocket : nat)     (* async with self._lock: enter *)
| ConnectAdd (websocket : nat)         (* self.active_connections.add(websocket) *)
| ConnectRelease                       (* async with self._lock: leave *)
| DisconnectAcquire (websocket : nat)
| DisconnectDiscard (websocket : nat)  (* self.active_connections.discard(websocket) *)
| DisconnectRelease
| BroadcastTest (message : dict)       (* if not self.active_connections: return *)
| BroadcastAcquire (message : dict)
| BroadcastCopy (message : dict)       (* connections = self.active_connections.copy() *)
| BroadcastRelease (message : dict) (connections : gset nat)
| BroadcastFor (message : dict) (todo : list nat) (disconnected : gset nat)
    (* the for loop with [todo] left to visit; past its end, [if disconnected:] *)
| RemoveAcquire (disconnected : gset nat)
| RemoveSubtract (disconnected : gset nat) (* self.active_connections -= disconnected *)
| RemoveRelease
| Done (r : result unit).

(** The registry and the calls.  [asyncio.Lock] only knows whether it is
    locked; [lock] also remembers which call locked it. *)
Record state : Type := {
  active_connections : gset nat;
  lock : option nat;
  tasks : list pc
}.

(** One statement of call [me].  [io] is the outcome of the statement's
    [await] on the transport when it has one.  [None]: the statement cannot
    run now (the lock is taken, or the call has finished). *)
Definition exec (me : nat) (io : option exn) (p : pc)
    (active_connections : gset nat) (lock : option nat)
    : option (pc * gset nat * option nat * list event) :=
  let acquire (next : pc) :=
    match lock with
    | None => Some (next, active_connections, Some me, [Acquire])
    | Some _ => None
    end in
  let release (next : pc) := Some (next, active_connections, None, [Release]) in
  match p with
  | ConnectAccept websocket =>
      Some (match io with
            | None => ConnectAcquire websocket
            | Some e => Done (Raises e)
            end, active_connections, lock, [Accept websocket io])
  | ConnectAcquire websocket => acquire (ConnectAdd websocket)
  | ConnectAdd websocket =>
      Some (ConnectRelease, {[websocket]} ∪ active_connections, lock, [Add websocket])
  | ConnectRelease => release (Done (Returns ()))
  | DisconnectAcquire websocket => acquire (DisconnectDiscard websocket)
  | DisconnectDiscard websocket =>
      Some (DisconnectRelease, active_connections ∖ {[websocket]}, lock,
            [Discard websocket])
  | DisconnectRelease => release (Done (Returns ()))
  | BroadcastTest message =>
      Some (if decide (active_connections = ∅) then Done (Returns ())
            else BroadcastAcquire message, active_connections, lock, [])
  | BroadcastAcquire message => acquire (BroadcastCopy message)
  | BroadcastCopy message =>
      Some (BroadcastRelease message active_connections, active_connections, lock,
            [Copy active_connections])
  | BroadcastRelease message connections =>
      release (BroadcastFor message (elements connections) ∅)
  | BroadcastFor message (connection :: todo) disconnected =>
      Some (match io with
            | None => BroadcastFor message todo disconnected
            | Some e =>
                if is_Exception e then
                  BroadcastFor message todo ({[connection]} ∪ disconnected)
                else Done (Raises e)
            end, active_connections, lock, [SendJson connection message io])
  | BroadcastFor message [] disconnected =>
      Some (if decide (disconnected = ∅) then Done (Returns ())
            else RemoveAcquire disconnected, active_connections, lock, [])
  | RemoveAcquire disconnected => acquire (RemoveSubtract disconnected)
  | RemoveSubtract disconnected =>
      Some (RemoveRelease, active_connections ∖ disconnected, lock,
            [Subtract disconnected])
  | RemoveRelease => release (Done (Returns ()))
  | Done _ => None
  end.

(** An entry of the log: who did what, who held the lock then, and what the
    live set was then. *)
Record entry : Type := {
  who : nat;
  lock_then : option nat;
  active_then : gset nat;
  what : event
}.

Definition step (s : state) (me : nat) (io : option exn)
    : option (state * list entry) :=
  match tasks s !! me with
  | None => None
  | Some p =>
      match exec me io p (active_connections s) (lock s) with
      | None => None
      | Some (p', active, lock', evs) =>
          Some ({| active_connections := active; lock := lock';
                   tasks := <[me := p']> (tasks s) |},
                map (λ ev, {| who := me; lock_then := lock s;
                              active_then := active_connections s; what := ev |}) evs)
      end
  end.

(** A schedule names, step by step, the call that runs and the outcome of
    its [await]. *)
Fixpoint run (s : state) (schedule : list (nat * option exn))
    : option (state * list entry) :=
  match schedule with
  | [] => Some (s, [])
  | (me, io) :: schedule =>
      match step s me io with
      | None => None
      | Some (s', log) =>
          match run s' schedule with
          | None => None
          | Some (s'', log') => Some (s'', log ++ log')
          end
      end
  end.

(** The statements inside an [async with self._lock] block. *)
Definition in_critical_section (p : pc) : bool :=
  match p with
  | ConnectAdd _ | ConnectRelease
  | DisconnectDiscard _ | DisconnectRelease
  | BroadcastCopy _ | BroadcastRelease _ _
  | RemoveSubtract _ | RemoveRelease => true
  | _ => false
  end.

(** Where asyncio may switch to another task: the call awaits the transport,
    has not started, has finished, or waits for a lock that is taken. *)
Definition may_yield (lock : option nat) (p : pc) : bool :=
  match p with
  | ConnectAccept _ | BroadcastFor _ (_ :: _) _ => true
  | DisconnectAcquire _ | BroadcastTest _ => true
  | Done _ => true
  | ConnectAcquire _ | BroadcastAcquire _ | RemoveAcquire _ =>
      bool_decide (lock ≠ None)
  | _ => false
  end.

(** A schedule is cooperative when the running call changes only where the
    one that ran last may yield, as under asyncio's event loop. *)
Fixpoint cooperative (s : state) (last : option nat)
    (schedule : list (nat * option exn)) : bool :=
  match schedule with
  | [] => true
  | (me, io) :: schedule =>
      let switch_ok :=
        match last with
        | None => true
        | Some prev =>
            bool_decide (prev = me) ||
            match tasks s !! prev with
            | Some p => may_yield (lock s) p
            | None => false
            end
        end in
      switch_ok &&
      match step s me io with
      | None => true
      | Some (s', _) => cooperative s' (Some me) schedule
      end
  end.

Definition is_transport_io (ev : event) : bool :=
  match ev with
  | Accept _ _ | SendJson _ _ _ | ReceiveText _ _ => true
  | _ => false
  end.

Definition is_membership_op (ev : event) : bool :=
  match ev with
  | Add _ | Discard _ | Copy _ | Subtract _ => true
  | _ => false
  end.

(** A registry with the lock free and no call inside a critical section. *)
Definition initial (s : state) : Prop :=
  lock s = None ∧ ∀ i p, tasks s !! i = Some p → in_critical_section p = false.

(** A call that is the only one in flight, and its run to the end, at most
    [fuel] statements of it: the transport answers the accept with
    [accept_result] and the send to [connection] with
    [send_json_result connection]. *)
Definition alone (p : pc) (active_connections : gset nat) : state :=
  {| active_connections := active_connections; lock := None; tasks := [p] |}.

Fixpoint drive (accept_result : option exn) (send_json_result : nat → option exn)
    (fuel : nat) (s : state) : state * list event :=
  match fuel with
  | 0 => (s, [])
  | S fuel =>
      let io :=
        match tasks s !! 0 with
        | Some (ConnectAccept _) => accept_result
        | Some (BroadcastFor _ (connection :: _) _) => send_json_result connection
        | _ => None
        end in
      match step s 0 io with
      | None => (s, [])
      | Some (s', log) =>
          let '(s'', evs) := drive accept_result send_json_result fuel s' in
          (s'', map what log ++ evs)
      end
  end.

(** The lock is held by the calls inside a critical section, and by them
    only. *)
Definition lock_inv (s : state) : Prop :=
  ∀ i p, tasks s !! i = Some p → in_critical_section p = true ↔ lock s = Some i.

(** What the lock asks of an entry of the log: the transport is not used by
    the holder of the lock, the set is read or changed by the holder only,
    and the holder does nothing else before it releases the lock. *)
Definition disciplined (en : entry) : Prop :=
  (is_transport_io (what en) = true → lock_then en ≠ Some (who en)) ∧
  (is_membership_op (what en) = true → lock_then en = Some (who en)) ∧
  (lock_then en = Some (who en) →
     is_membership_op (what en) = true ∨ what en = Release).

End Tasks.

(** ** Reading a list of events *)

(** The connections [send_json] was called on, in order, and those among
    them where it returned. *)
Fixpoint attempted (trace : list event) : list nat :=
  match trace with
  | [] => []
  | SendJson websocket _ _ :: trace => websocket :: attempted trace
  | _ :: trace => attempted trace
  end.

Fixpoint delivered (trace : list event) : list nat :=
  match trace with
  | [] => []
  | SendJson websocket _ None :: trace => websocket :: delivered trace
  | _ :: trace => delivered trace
  end.

(** The messages [send_json] was called with, in order. *)
Fixpoint sent_messages (trace : list event) : list dict :=
  match trace with
  | [] => []
  | SendJson _ message _ :: trace => message :: sent_messages trace
  | _ :: trace => sent_messages trace
  end.

(** How many times [ev] occurs. *)
Definition occurrences (ev : event) (trace : list event) : nat :=
  length (filter (λ x, x = ev) trace).

(** Events that change the membership of the live set. *)
Definition is_mutation (ev : event) : bool :=
  match ev with
  | Add _ | Discard _ | Subtract _ => true
  | _ => false
  end.

(** What the session's loop does: it receives and it sends. *)
Definition is_session_io (ev : event) : bool :=
  match ev with
  | SendJson _ _ _ | ReceiveText _ _ => true
  | _ => false
  end.

(** ** Sequences of registry calls *)

Inductive call : Type :=
| Connect (accept_result : option exn) (websocket : nat)
| Disconnect (websocket : nat)
| Broadcast (send_json_result : nat → option exn) (message : dict).

Definition do_call (c : call) (active_connections : gset nat)
    : result unit * gset nat * list event :=
  match c with
  | Connect accept_result websocket =>
      ConnectionManager.connect accept_result websocket active_connections
  | Disconnect websocket =>
      ConnectionManager.disconnect websocket active_connections
  | Broadcast send_json_result message =>
      ConnectionManager.broadcast send_json_result message active_connections
  end.

(** The calls run one after the other; an exception that leaves one of them
    is its caller's and does not stop the others. *)
Fixpoint run_calls (cs : list call) (active_connections : gset nat) : gset nat :=
  match cs with
  | [] => active_connections
  | c :: cs => run_calls cs (do_call c active_connections).1.2
  end.

(** The connections on which [send_json] raises. *)
Definition failing (send_json_result : nat → option exn)
    (connections : gset nat) : gset nat :=
  filter (λ h, send_json_result h ≠ None) connections.



(** The tally of a sequence of calls: the adds that inserted a connection
    not present then, the removes that found theirs present, and the
    connections a broadcast that returned had failed to send to. *)
Record tally : Type := {
  effective_adds : nat;
  effective_removes : nat;
  evictions : nat
}.

Fixpoint count_calls (cs : list call) (active_connections : gset nat) : tally :=
  match cs with
  | [] => {| effective_adds := 0; effective_removes := 0; evictions := 0 |}
  | c :: cs =>
      let rest := count_calls cs (do_call c active_connections).1.2 in
      match c with
      | Connect None websocket =>
          if decide (websocket ∈ active_connections) then rest
          else {| effective_adds := S (effective_adds rest);
                  effective_removes := effective_removes rest;
                  evictions := evictions rest |}
      | Connect (Some _) _ => rest
      | Disconnect websocket =>
          if decide (websocket ∈ active_connections) then
            {| effective_adds := effective_adds rest;
               effective_removes := S (effective_removes rest);
               evictions := evictions rest |}
          else rest
      | Broadcast send_json_result _ =>
          match (do_call c active_connections).1.1 with
          | Returns _ =>
              {| effective_adds := effective_adds rest;
                 effective_removes := effective_removes rest;
                 evictions :=
                   size (failing send_json_result active_connections) + evictions rest |}
          | Raises _ => rest
          end
      end
  end.

(** The same tally read off the log of interleaved calls: an [Add] counts
    when the connection was not in the set then, a [Discard] when it was,
    and a [Subtract] for as many of its connections as were. *)
Fixpoint count_log (log : list Tasks.entry) : tally :=
  match log with
  | [] => {| effective_adds := 0; effective_removes := 0; evictions := 0 |}
  | en :: log =>
      let rest := count_log log in
      match Tasks.what en with
      | Add websocket =>
          if decide (websocket ∈ Tasks.active_then en) then rest
          else {| effective_adds := S (effective_adds rest);
                  effective_removes := effective_removes rest;
                  evictions := evictions rest |}
      | Discard websocket =>
          if decide (websocket ∈ Tasks.active_then en) then
            {| effective_adds := effective_adds rest;
               effective_removes := S (effective_removes rest);
               evictions := evictions rest |}
          else rest
      | Subtract disconnected =>
          {| effective_adds := effective_adds rest;
             effective_removes := effective_removes rest;
             evictions := size (disconnected ∩ Tasks.active_then en) + evictions rest |}
      | _ => rest
      end
  end.

(** Following the testable property as it is worded: the number of distinct
    handles added by a sequence of calls, whatever was removed in between. *)
Definition distinct_handles_added (cs : list call) : nat :=
  size (list_to_set
          (omap (λ c, match c with Connect None websocket => Some websocket | _ => None end)
                cs) : gset nat).

(** ** The replies the interface description asks for *)

(** Following the message schema: an [echo] for an inbound text, a [ping]
    for a receive that raised (an idle timeout). *)
Definition spec_reply (inbound : string + exn) (timestamp : string) : dict :=
  match inbound with
  | inl original => echo original timestamp
  | inr _ => ping timestamp
  end.

(** ** Sample environments *)

(** A transport on which the send to connection 2 raises. *)
Definition send_fails_on_2 (h : nat) : option exn :=
  if decide (h = 2) then Some RuntimeError else None.

(** A connection that is added, removed, and added again. *)
Definition reconnect : list call :=
  [Connect None 1; Disconnect 1; Connect None 1].

(** The same three calls in flight, and the schedule that runs them one
    after the other. *)
Definition reconnect_in_flight : Tasks.state :=
  {| Tasks.active_connections := ∅;
     Tasks.lock := None;
     Tasks.tasks :=
       [Tasks.ConnectAccept 1; Tasks.DisconnectAcquire 1; Tasks.ConnectAccept 1] |}.

Definition reconnect_schedule : list (nat * option exn) :=
  [(0, None); (0, None); (0, None); (0, None);
   (1, None); (1, None); (1, None);
   (2, None); (2, None); (2, None); (2, None)].

(** A connection that is added and then evicted by a broadcast. *)
Definition add_then_evict : list call :=
  [Connect None 2; Broadcast send_fails_on_2 []].

(** A client that says hello, stays idle for a minute, then closes. *)
Definition hello_idle_close : Session.transport :=
  {| Session.accept_result := None;
     Session.send_json_result := λ _, None;
     Session.receive_text_result := λ j,
       match j with
       | 0 => inl "hello"%string
       | 1 => inr TimeoutError
       | _ => inr WebSocketDisconnect
       end;
     Session.now_isoformat := λ i, str i |}.

(** A client whose handshake fails. *)
Definition refused : Session.transport :=
  {| Session.accept_result := Some RuntimeError;
     Session.send_json_result := λ _, None;
     Session.receive_text_result := λ _, inr WebSocketDisconnect;
     Session.now_isoformat := λ i, str i |}.

(** [shutdown_manager = GracefulShutdownManager(connection_manager)], with
    the default [timeout_minutes = 30]; and the same after the signal
    handler or the lifespan has called [initiate_shutdown]. *)
Definition shutdown_manager : GracefulShutdownManager.t :=
  GracefulShutdownManager.init 30.

Definition shutting_down : GracefulShutdownManager.t :=
  GracefulShutdownManager.initiate_shutdown shutdown_manager.

(** One connection that never closes, polled every five seconds sharp. *)
Definition stubborn_client : GracefulShutdownManager.observations :=
  {| GracefulShutdownManager.now := λ k, (Z.of_nat (k - 1) * 5000000)%Z;
     GracefulShutdownManager.connection_count := λ _, 1;
     GracefulShutdownManager.sleep_result := λ _, None |}.

(** Three iterations of the broadcaster: a tick to connections 1 and 2 of
    which 2 fails, a tick after connection 3 joined, then the flag. *)
Definition three_iterations : list Broadcaster.iteration :=
  [ {| Broadcaster.shutdown_initiated := false;
       Broadcaster.sleep_result := None;
       Broadcaster.churn := λ a, a;
       Broadcaster.now_isoformat := "t1";
       Broadcaster.send_json_result := send_fails_on_2 |};
    {| Broadcaster.shutdown_initiated := false;
       Broadcaster.sleep_result := None;
       Broadcaster.churn := λ a, {[3]} ∪ a;
       Broadcaster.now_isoformat := "t2";
       Broadcaster.send_json_result := λ _, None |};
    {| Broadcaster.shutdown_initiated := true;
       Broadcaster.sleep_result := None;
       Broadcaster.churn := λ a, a;
       Broadcaster.now_isoformat := "t3";
       Broadcaster.send_json_result := λ _, None |} ]%string.

(** Three calls in flight over the registry [{1, 2}]: a [connect] of
    connection 3, a broadcast, and a [disconnect] of connection 1; and a
    schedule in which the broadcast's send to 2 fails, the connect runs,
    the disconnect runs, and the broadcast sends to 1 and removes 2. *)
Definition three_calls : Tasks.state :=
  {| Tasks.active_connections := {[1; 2]};
     Tasks.lock := None;
     Tasks.tasks :=
       [Tasks.ConnectAccept 3; Tasks.BroadcastTest []; Tasks.DisconnectAcquire 1] |}.

Definition three_calls_schedule : list (nat * option exn) :=
  [(1, None); (1, None); (1, None); (1, None); (1, Some RuntimeError);
   (0, None); (0, None); (0, None); (0, None);
   (2, None); (2, None); (2, None);
   (1, None); (1, None); (1, None); (1, None); (1, None)].

(** ** Further readings of traces and logs *)

(** The texts the session received, in order, and the number of receives
    that met the idle timeout. *)
Fixpoint received_texts (trace : list event) : list string :=
  match trace with
  | [] => []
  | ReceiveText _ (inl data) :: trace => data :: received_texts trace
  | _ :: trace => received_texts trace
  end.

Fixpoint idle_timeouts (trace : list event) : nat :=
  match trace with
  | [] => 0
  | ReceiveText _ (inr TimeoutError) :: trace => S (idle_timeouts trace)
  | _ :: trace => idle_timeouts trace
  end.

(** The messages of a given type that [send_json] was called with, and the
    number of echo sends that raised [TimeoutError]. *)
Definition sends_of_type (type : string) (trace : list event) : list dict :=
  filter (λ m, get "type" m = Some (JStr type)) (sent_messages trace).

Fixpoint echo_timeouts (trace : list event) : nat :=
  match trace with
  | [] => 0
  | SendJson _ m (Some TimeoutError) :: trace =>
      (if decide (get "type" m = Some (JStr "echo")) then 1 else 0)
      + echo_timeouts trace
  | _ :: trace => echo_timeouts trace
  end.

(** The sends that did not return: all but the echo sends that raised
    [TimeoutError], which the loop takes for an idle timeout. *)
Definition send_ended_session (ev : event) : bool :=
  match ev with
  | SendJson _ m (Some e) =>
      negb (bool_decide (e = TimeoutError ∧ get "type" m = Some (JStr "echo")))
  | _ => false
  end.

(** A list of events in which a send that ended the session is the last
    event, its exception being [x]. *)
Definition ends_with_failed_send (ws : nat) (x : option exn)
    (evs : list event) : Prop :=
  ∀ pre ev post,
    evs = pre ++ ev :: post → send_ended_session ev = true →
    post = [] ∧ ∃ m e, ev = SendJson ws m (Some e) ∧ x = Some e.

(** Calls on the shutdown manager, one after the other.  A wait that has not
    returned within its fuel has not set the event, and an exception that
    leaves a wait is its caller's and does not stop the other calls. *)
Inductive manager_call : Type :=
| InitiateShutdown
| WaitForShutdown (o : GracefulShutdownManager.observations) (fuel : nat).

Fixpoint run_manager (cs : list manager_call) (self : GracefulShutdownManager.t)
    : GracefulShutdownManager.t :=
  match cs with
  | [] => self
  | InitiateShutdown :: cs =>
      run_manager cs (GracefulShutdownManager.initiate_shutdown self)
  | WaitForShutdown o fuel :: cs =>
      match (GracefulShutdownManager.wait_for_shutdown self o fuel).1 with
      | Some (self', _) => run_manager cs self'
      | None => run_manager cs self
      end
  end.

(** The calls that have not run a statement yet. *)
Definition entry_point (p : Tasks.pc) : bool :=
  match p with
  | Tasks.ConnectAccept _ | Tasks.DisconnectAcquire _ | Tasks.BroadcastTest _ => true
  | _ => false
  end.

Definition fresh (s : Tasks.state) : Prop :=
  Tasks.lock s = None ∧ ∀ i p, Tasks.tasks s !! i = Some p → entry_point p = true.

(** In a log: call [i] took the snapshot [c]; call [i] saw its send to [h]
    raise an [Exception]. *)
Definition copied (i : nat) (c : gset nat) (log : list Tasks.entry) : Prop :=
  ∃ en, en ∈ log ∧ Tasks.who en = i ∧ Tasks.what en = Copy c ∧ Tasks.active_then en = c.

Definition send_failed (i h : nat) (log : list Tasks.entry) : Prop :=
  ∃ en m e, en ∈ log ∧ Tasks.who en = i ∧
    Tasks.what en = SendJson h m (Some e) ∧ is_Exception e = true.

(** What the log says of a broadcast call [i] that stands at [p]: it has
    taken a snapshot, what it has left to visit is in the snapshot, and what
    it has marked as disconnected is in the snapshot and failed a send. *)
Definition pc_inv (i : nat) (p : Tasks.pc) (log : list Tasks.entry) : Prop :=
  match p with
  | Tasks.BroadcastRelease _ c => copied i c log
  | Tasks.BroadcastFor _ todo d =>
      ∃ c, copied i c log ∧ (∀ h, h ∈ todo → h ∈ c) ∧
           (∀ h, h ∈ d → h ∈ c ∧ send_failed i h log)
  | Tasks.RemoveAcquire d | Tasks.RemoveSubtract d =>
      ∃ c, copied i c log ∧ (∀ h, h ∈ d → h ∈ c ∧ send_failed i h log)
  | _ => True
  end.

Definition snapshot_inv (s : Tasks.state) (log : list Tasks.entry) : Prop :=
  ∀ i p, Tasks.tasks s !! i = Some p → pc_inv i p log.

(** A client that says hello after the handshake and whose connection then
    breaks: the echo cannot be sent. *)
Definition hello_then_broken : Session.transport :=
  {| Session.accept_result := None;
     Session.send_json_result := λ i,
       match i with 0 => None | _ => Some RuntimeError end;
     Session.receive_text_result := λ _, inl "hello"%string;
     Session.now_isoformat := λ i, str i |}.

(** Three connections that have all closed by the second poll. *)
Definition drained_by_second_poll : GracefulShutdownManager.observations :=
  {| GracefulShutdownManager.now := λ k, (Z.of_nat (k - 1) * 5000000)%Z;
     GracefulShutdownManager.connection_count := λ k,
       match k with 0 => 3 | _ => 0 end;
     GracefulShutdownManager.sleep_result := λ _, None |}.

(** A manager built with a timeout of zero minutes, shutting down. *)
Definition impatient : GracefulShutdownManager.t :=
  GracefulShutdownManager.initiate_shutdown (GracefulShutdownManager.init 0).

(** A manager built with a timeout beyond what [timedelta] holds, shutting
    down; and a wait on one stubborn client that is cancelled in its second
    sleep. *)
Definition overlong : GracefulShutdownManager.t :=
  GracefulShutdownManager.initiate_shutdown
    (GracefulShutdownManager.init 1440000000000).

Definition cancelled_in_second_sleep : GracefulShutdownManager.observations :=
  {| GracefulShutdownManager.now := λ k, (Z.of_nat (k - 1) * 5000000)%Z;
     GracefulShutdownManager.connection_count := λ _, 1;
     GracefulShutdownManager.sleep_result := λ k,
       match k with 1 => Some CancelledError | _ => None end |}.

(** Iterations of the broadcaster in which the sleep raises an exception
    that is not a cancellation, and in which the sleep is cancelled. *)
Definition sleep_raises (e : exn) : Broadcaster.iteration :=
  {| Broadcaster.shutdown_initiated := false;
     Broadcaster.sleep_result := Some e;
     Broadcaster.churn := λ a, a;
     Broadcaster.now_isoformat := "t0";
     Broadcaster.send_json_result := λ _, None |}%string.

(** A broadcast whose second send is cancelled after its first has failed. *)
Definition send_cancelled_on_3 (h : nat) : option exn :=
  if decide (h = 3) then Some CancelledError else send_fails_on_2 h.

(** * Part II: the properties *)

(** ** The registry: one call *)

Section registry.

Import ConnectionManager.

Implicit Types (send : nat → option exn) (message : dict).
Implicit Types (active : gset nat) (l : list nat).

Lemma send_all_returns send message l (disconnected : gset nat) :
  (∀ h e, h ∈ l → send h = Some e → is_Exception e = true) →
  send_all send message l disconnected =
    (Returns (disconnected ∪ list_to_set (filter (λ h, send h ≠ None) l)),
     map (λ h, SendJson h message (send h)) l).
Proof.
  revert disconnected. induction l as [|h l IH]; intros D Hexc; simpl.
  - do 2 f_equal. set_solver.
  - assert (Hl : ∀ h' e, h' ∈ l → send h' = Some e → is_Exception e = true).
    { intros h' e Hin. apply Hexc. by right. }
    destruct (send h) as [e|] eqn:Hh.
    + rewrite (Hexc h e) by (done || left).
      rewrite IH by done.
      rewrite filter_cons_True by congruence.
      do 2 f_equal. set_solver.
    + rewrite IH by done.
      rewrite filter_cons_False by (intros ?; congruence).
      done.
Qed.

Lemma failing_elements send active :
  list_to_set (filter (λ h, send h ≠ None) (elements active)) = failing send active.
Proof.
  apply set_eq. intros h. unfold failing.
  rewrite elem_of_list_to_set, list_elem_of_filter, elem_of_filter, elem_of_elements.
  done.
Qed.

(** The whole of a broadcast none of whose sends is cancelled. *)
Lemma broadcast_returns send message active :
  (∀ h e, h ∈ active → send h = Some e → is_Exception e = true) →
  broadcast send message active =
    (Returns (), active ∖ failing send active,
     if decide (active = ∅) then []
     else [Acquire; Copy active; Release]
          ++ map (λ h, SendJson h message (send h)) (elements active)
          ++ if decide (failing send active = ∅) then []
             else [Acquire; Subtract (failing send active); Release]).
Proof.
  intros Hexc. unfold broadcast. destruct (decide (active = ∅)) as [->|Hne].
  - replace (∅ ∖ failing send ∅) with (∅ : gset nat) by set_solver. done.
  - rewrite send_all_returns
      by (intros h e Hh; apply Hexc; by apply elem_of_elements).
    rewrite failing_elements, (left_id_L ∅ (∪)).
    destruct (decide (failing send active = ∅)) as [He|He]; [|done].
    rewrite He, app_nil_r. replace (active ∖ ∅) with active by set_solver. done.
Qed.

Lemma attempted_sends send message l :
  attempted (map (λ h, SendJson h message (send h)) l) = l.
Proof. induction l as [|h l IH]; simpl; by f_equal. Qed.

Lemma delivered_sends send message l :
  delivered (map (λ h, SendJson h message (send h)) l) = filter (λ h, send h = None) l.
Proof.
  induction l as [|h l IH]; simpl; [done|].
  destruct (send h) eqn:Hh.
  - by rewrite filter_cons_False by congruence.
  - rewrite filter_cons_True by done. by f_equal.
Qed.

Lemma attempted_app t1 t2 : attempted (t1 ++ t2) = attempted t1 ++ attempted t2.
Proof. induction t1 as [|[] t1 IH]; simpl; by f_equal. Qed.

Lemma delivered_app t1 t2 : delivered (t1 ++ t2) = delivered t1 ++ delivered t2.
Proof. induction t1 as [|[? | | | | | | |? ? []| | | |] t1 IH]; simpl; by f_equal. Qed.

Lemma failing_subseteq send active : failing send active ⊆ active.
Proof. unfold failing. intros h. rewrite elem_of_filter. tauto. Qed.

Lemma delivered_elements send active :
  filter (λ h, send h = None) (elements active)
    ≡ₚ elements (active ∖ failing send active).
Proof.
  apply NoDup_Permutation.
  - apply NoDup_filter, NoDup_elements.
  - apply NoDup_elements.
  - intros h. unfold failing.
    rewrite list_elem_of_filter, !elem_of_elements, elem_of_difference, elem_of_filter.
    destruct (send h); naive_solver.
Qed.

(** C9: broadcasting to an empty registry calls [send_json] on nothing (the
    list of operations is empty), leaves the set empty and returns. *)
Theorem broadcast_empty_registry send message :
  broadcast send message ∅ = (Returns (), ∅, []).
Proof. unfold broadcast. by rewrite decide_True. Qed.

(** C1: a broadcast over [N] live connections of which [M] fail to send.
    The operations are the snapshot, then one send to every connection of
    the snapshot, then the removal; [N - M] sends return, one to each
    connection that did not fail; nothing before the removal changes the
    set; the removal takes away the [M] failed connections in one batch and
    no other. *)
Theorem broadcast_partial_failure send message active :
  (∀ h e, h ∈ active → send h = Some e → is_Exception e = true) →
  let N := size active in
  let M := size (failing send active) in
  ∃ after sends removal,
    broadcast send message active =
      (Returns (), after,
       (if decide (active = ∅) then [] else [Acquire; Copy active; Release])
       ++ sends ++ removal) ∧
    attempted sends = elements active ∧
    Forall (λ ev, is_mutation ev = false) sends ∧
    length (delivered sends) = N - M ∧
    delivered sends ≡ₚ elements (active ∖ failing send active) ∧
    removal = (if decide (M = 0) then []
               else [Acquire; Subtract (failing send active); Release]) ∧
    after = active ∖ failing send active ∧
    size after = N - M ∧
    N - size after = M ∧
    (∀ h, send h = None → h ∈ after ↔ h ∈ active).
Proof.
  intros Hexc N M.
  pose proof (failing_subseteq send active) as Hsub.
  pose proof (subseteq_size _ _ Hsub) as Hle.
  assert (Hsize : size (active ∖ failing send active) = N - M)
    by (by apply size_difference).
  exists (active ∖ failing send active),
    (if decide (active = ∅) then []
     else map (λ h, SendJson h message (send h)) (elements active)),
    (if decide (M = 0) then []
     else [Acquire; Subtract (failing send active); Release]).
  split_and!; try done.
  - rewrite broadcast_returns by done.
    destruct (decide (active = ∅)) as [Hempty|Hne]; simpl.
    + subst active. subst M. rewrite decide_True; [done|].
      apply size_empty_iff. intros h. unfold failing. rewrite elem_of_filter. set_solver.
    + do 5 f_equal. subst M.
      destruct (decide (failing send active = ∅)) as [He|He].
      * rewrite decide_True; [done|]. rewrite He. apply size_empty.
      * rewrite decide_False; [done|]. intros Hz. by apply size_empty_inv, leibniz_equiv in Hz.
  - destruct (decide (active = ∅)) as [->|Hne].
    + by rewrite elements_empty.
    + apply attempted_sends.
  - destruct (decide (active = ∅)); [constructor|].
    apply Forall_forall. intros ev [h [-> _]]%list_elem_of_fmap. done.
  - destruct (decide (active = ∅)) as [->|Hne].
    + simpl. subst N. rewrite size_empty. done.
    + rewrite delivered_sends, delivered_elements. fold (size (active ∖ failing send active)).
      done.
  - destruct (decide (active = ∅)) as [->|Hne].
    + simpl. replace (∅ ∖ failing send ∅) with (∅ : gset nat) by set_solver.
      by rewrite elements_empty.
    + rewrite delivered_sends. apply delivered_elements.
  - lia.
  - intros h Hh. unfold failing. rewrite elem_of_difference, elem_of_filter. naive_solver.
Qed.

Lemma broadcast_partial_failure_witness :
  (∀ h e, h ∈ ({[1; 2; 3]} : gset nat) →
     send_fails_on_2 h = Some e → is_Exception e = true) ∧
  ∃ sends removal,
    (broadcast send_fails_on_2 [] {[1; 2; 3]}).2 =
      [Acquire; Copy {[1; 2; 3]}; Release] ++ sends ++ removal ∧
    length (delivered sends) = 2.
Proof.
  assert (H : ∀ h e, h ∈ ({[1; 2; 3]} : gset nat) →
            send_fails_on_2 h = Some e → is_Exception e = true).
  { intros h e _. unfold send_fails_on_2. case_decide; [|done]. by intros [= <-]. }
  split; [exact H|].
  destruct (broadcast_partial_failure send_fails_on_2 [] {[1; 2; 3]} H)
    as (after & sends & removal & Hrun & _ & _ & Hlen & _).
  exists sends, removal. split; [by rewrite Hrun|exact Hlen].
Defined.

(** Whatever the sends do: a broadcast that returns has removed the failed
    connections and no other, one that is cancelled has removed nothing. *)
Lemma send_all_disconnected send message l (disconnected : gset nat) :
  match send_all send message l disconnected with
  | (Returns d, _) => d = disconnected ∪ list_to_set (filter (λ h, send h ≠ None) l)
  | (Raises _, _) => True
  end.
Proof.
  revert disconnected. induction l as [|h l IH]; intros D; simpl.
  - set_solver.
  - destruct (send h) as [e|] eqn:Hh.
    + destruct (is_Exception e); [|done].
      specialize (IH ({[h]} ∪ D)).
      destruct (send_all send message l ({[h]} ∪ D)) as [[d|] evs]; [|done].
      rewrite filter_cons_True by congruence. set_solver.
    + specialize (IH D).
      destruct (send_all send message l D) as [[d|] evs]; [|done].
      by rewrite filter_cons_False by (intros ?; congruence).
Qed.



Lemma broadcast_membership send message active :
  match broadcast send message active with
  | (Returns _, after, _) => after = active ∖ failing send active
  | (Raises _, after, _) => after = active
  end.
Proof.
  unfold broadcast. destruct (decide (active = ∅)) as [->|Hne].
  - unfold failing. set_solver.
  - pose proof (send_all_disconnected send message (elements active) ∅) as Hd.
    destruct (send_all send message (elements active) ∅) as [[d|] evs]; [|done].
    rewrite failing_elements in Hd.
    destruct (decide (d = ∅)) as [He|He]; set_solver.
Qed.

End registry.

(** ** The registry: sequences of calls *)

Section calls.

Import ConnectionManager Tasks.

(** What each call does to the size of the set, in terms of the tally. *)
Lemma count_calls_balance cs (active : gset nat) :
  let t := count_calls cs active in
  size (run_calls cs active) + (effective_removes t + evictions t)
  = size active + effective_adds t.
Proof.
  revert active. induction cs as [|c cs IH]; intros active; simpl; [lia|].
  specialize (IH (do_call c active).1.2). simpl in IH.
  destruct c as [[e|] ws|ws|send message]; simpl in *.
  - lia.
  - destruct (decide (ws ∈ active)) as [Hin|Hnin]; simpl.
    + assert (Heq : {[ws]} ∪ active = active) by set_solver.
      rewrite Heq in *. lia.
    + rewrite size_union, size_singleton in IH by set_solver. lia.
  - destruct (decide (ws ∈ active)) as [Hin|Hnin]; simpl.
    + rewrite size_difference, size_singleton in IH by set_solver.
      assert (size active ≠ 0); [|lia].
      intros Hz. apply size_empty_inv in Hz. set_solver.
    + assert (Heq : active ∖ {[ws]} = active) by set_solver.
      rewrite Heq in *. lia.
  - pose proof (broadcast_membership send message active) as Hm.
    destruct (broadcast send message active) as [[[[]|e] after] evs]; simpl in *.
    + subst after.
      pose proof (failing_subseteq send active) as Hsub.
      pose proof (subseteq_size _ _ Hsub).
      rewrite size_difference in IH by done. lia.
    + subst after. lia.
Qed.

(** The size of the live set under any interleaving: what the effective
    adds put in, less what the effective discards and the batch removals
    took out. *)
Lemma count_log_app log1 log2 :
  effective_adds (count_log (log1 ++ log2))
    = effective_adds (count_log log1) + effective_adds (count_log log2) ∧
  effective_removes (count_log (log1 ++ log2))
    = effective_removes (count_log log1) + effective_removes (count_log log2) ∧
  evictions (count_log (log1 ++ log2))
    = evictions (count_log log1) + evictions (count_log log2).
Proof.
  induction log1 as [|en log1 (IH1 & IH2 & IH3)]; [done|]. simpl.
  destruct (what en); simpl; try done; repeat case_decide; simpl; lia.
Qed.

Lemma step_count (s : Tasks.state) me io s' log :
  step s me io = Some (s', log) →
  size (active_connections s')
    + (effective_removes (count_log log) + evictions (count_log log))
  = size (active_connections s) + effective_adds (count_log log).
Proof.
  unfold step. destruct (tasks s !! me) as [p|]; [|done].
  destruct (exec me io p (active_connections s) (lock s))
    as [[[[p' active'] lk'] evs]|] eqn:Hexec; [|done].
  intros [= <- <-]. simpl.
  destruct p; simpl in Hexec;
    repeat match type of Hexec with
           | context [match ?x with _ => _ end] => destruct x eqn:?
           end;
    simplify_eq; simpl; try lia.
  - case_decide; simpl.
    + replace ({[websocket]} ∪ active_connections s) with (active_connections s)
        by set_solver. lia.
    + rewrite size_union, size_singleton by set_solver. lia.
  - case_decide; simpl.
    + rewrite size_difference, size_singleton by set_solver.
      assert (size (active_connections s) ≠ 0); [|lia].
      intros Hz. apply size_empty_inv in Hz. set_solver.
    + replace (active_connections s ∖ {[websocket]}) with (active_connections s)
        by set_solver. lia.
  - replace (active_connections s ∖ disconnected)
      with (active_connections s ∖ (disconnected ∩ active_connections s))
      by set_solver.
    assert (Hsub : disconnected ∩ active_connections s ⊆ active_connections s)
      by set_solver.
    pose proof (subseteq_size _ _ Hsub).
    rewrite size_difference by done. lia.
Qed.

Lemma count_interleaved schedule (s : Tasks.state) s' log :
  run s schedule = Some (s', log) →
  size (active_connections s')
    + (effective_removes (count_log log) + evictions (count_log log))
  = size (active_connections s) + effective_adds (count_log log).
Proof.
  revert s log. induction schedule as [|[me io] schedule IH]; intros s log; simpl.
  - intros [= <- <-]. simpl. lia.
  - destruct (step s me io) as [[s1 log1]|] eqn:Hstep; [|done].
    destruct (run s1 schedule) as [[s2 log2]|] eqn:Hrun; [|done].
    intros [= <- <-].
    pose proof (step_count _ _ _ _ _ Hstep).
    pose proof (IH _ _ Hrun).
    destruct (count_log_app log1 log2) as (-> & -> & ->). lia.
Qed.

(** C2, as amended: after any sequence of calls from the empty registry,
    run one after the other or interleaved statement by statement, the
    count is the number of adds that inserted a connection not present
    then, minus the removes that found theirs present and the connections
    that the batch removals of broadcasts took out.  Adding a connection
    that is present changes nothing, an add raises the count by at most
    one, and removing an absent connection returns without changing the
    set. *)
Theorem count_after_calls :
  (∀ cs,
     let t := count_calls cs ∅ in
     connection_count (run_calls cs ∅)
       = effective_adds t - (effective_removes t + evictions t) ∧
     effective_removes t + evictions t ≤ effective_adds t) ∧
  (∀ s0 schedule s log,
     Tasks.active_connections s0 = ∅ →
     run s0 schedule = Some (s, log) →
     let t := count_log log in
     connection_count (Tasks.active_connections s)
       = effective_adds t - (effective_removes t + evictions t) ∧
     effective_removes t + evictions t ≤ effective_adds t) ∧
  (∀ active ws, ws ∈ active → (connect None ws active).1.2 = active) ∧
  (∀ active r ws,
     connection_count (connect r ws active).1.2 ≤ S (connection_count active)) ∧
  (∀ active ws, ws ∉ active →
     disconnect ws active = (Returns (), active, [Acquire; Discard ws; Release])).
Proof.
  unfold connection_count. split_and!.
  - intros cs. pose proof (count_calls_balance cs ∅) as Hb. cbv zeta in Hb.
    rewrite size_empty in Hb. lia.
  - intros s0 schedule s log Hempty Hrun.
    pose proof (count_interleaved _ _ _ _ Hrun) as Hb.
    rewrite Hempty, size_empty in Hb. lia.
  - intros active ws Hin. simpl. set_solver.
  - intros active [e|] ws; simpl; [lia|].
    destruct (decide (ws ∈ active)).
    + replace ({[ws]} ∪ active) with active by set_solver. lia.
    + rewrite size_union, size_singleton by set_solver. lia.
  - intros active ws Hnin. unfold disconnect. do 2 f_equal. set_solver.
Qed.

Lemma count_after_calls_witness :
  Tasks.active_connections reconnect_in_flight = ∅ ∧
  (∃ s log,
     run reconnect_in_flight reconnect_schedule = Some (s, log) ∧
     connection_count (Tasks.active_connections s)
       = effective_adds (count_log log)
         - (effective_removes (count_log log) + evictions (count_log log))) ∧
  (2 ∈ ({[1; 2]} : gset nat)) ∧
  ((connect None 2 {[1; 2]}).1.2 = {[1; 2]}) ∧
  (3 ∉ ({[1; 2]} : gset nat)) ∧
  (disconnect 3 {[1; 2]} = (Returns (), {[1; 2]}, [Acquire; Discard 3; Release])).
Proof.
  destruct count_after_calls as (_ & Hlog & Hadd & _ & Hremove).
  assert (H2 : 2 ∈ ({[1; 2]} : gset nat)) by set_solver.
  assert (H3 : 3 ∉ ({[1; 2]} : gset nat)) by set_solver.
  split_and!; [reflexivity| |exact H2|exact (Hadd _ _ H2)|exact H3|exact (Hremove _ _ H3)].
  destruct (run reconnect_in_flight reconnect_schedule) as [[s log]|] eqn:Hrun;
    [|by vm_compute in Hrun].
  exists s, log. split; [done|].
  exact (proj1 (Hlog reconnect_in_flight reconnect_schedule s log eq_refl Hrun)).
Defined.

(** C2, as stated, fails when a connection is added again after it was
    removed: one distinct connection was added and one remove was effective,
    yet the count is 1. *)
Lemma count_after_reconnect :
  connection_count (run_calls reconnect ∅) = 1 ∧
  distinct_handles_added reconnect = 1 ∧
  effective_removes (count_calls reconnect ∅) = 1 ∧
  connection_count (run_calls reconnect ∅)
    ≠ distinct_handles_added reconnect - effective_removes (count_calls reconnect ∅).
Proof. vm_compute. split_and!; done. Qed.

(** A broadcast removes connections too: after one add and no [disconnect]
    the count can be 0. *)
Lemma count_after_eviction :
  connection_count (run_calls add_then_evict ∅) = 0 ∧
  distinct_handles_added add_then_evict = 1 ∧
  effective_removes (count_calls add_then_evict ∅) = 0 ∧
  connection_count (run_calls add_then_evict ∅)
    ≠ distinct_handles_added add_then_evict
      - effective_removes (count_calls add_then_evict ∅).
Proof. vm_compute. split_and!; done. Qed.

End calls.

(** ** The session handler *)

Section session.

Import ConnectionManager Session.

Implicit Types (t : transport) (ws fuel sent received : nat).

(** The loop only receives and sends. *)
Lemma receive_loop_io t ws fuel sent received :
  Forall (λ ev, is_session_io ev = true) (receive_loop t ws fuel sent received).2.
Proof.
  revert sent received. induction fuel as [|fuel IH]; intros sent received; simpl.
  - constructor.
  - destruct (receive_text_result t received) as [data|e].
    + destruct (send_json_result t sent) as [e|].
      * destruct e; simpl; try by repeat constructor.
        destruct (send_json_result t (S sent)); simpl.
        -- by repeat constructor.
        -- specialize (IH (S (S sent)) (S received)).
           destruct (receive_loop t ws fuel (S (S sent)) (S received)).
           by repeat constructor.
      * specialize (IH (S sent) (S received)).
        destruct (receive_loop t ws fuel (S sent) (S received)).
        by repeat constructor.
    + destruct e; simpl; try by repeat constructor.
      destruct (send_json_result t sent); simpl.
      * by repeat constructor.
      * specialize (IH (S sent) (S received)).
        destruct (receive_loop t ws fuel (S sent) (S received)).
        by repeat constructor.
Qed.

Lemma try_body_io t ws fuel :
  Forall (λ ev, is_session_io ev = true) (try_body t ws fuel).2.
Proof.
  unfold try_body. destruct (send_json_result t 0).
  - by repeat constructor.
  - pose proof (receive_loop_io t ws fuel 1 0) as H.
    destruct (receive_loop t ws fuel 1 0). by constructor.
Qed.

Lemma occurrences_app ev (tr1 tr2 : list event) :
  occurrences ev (tr1 ++ tr2) = occurrences ev tr1 + occurrences ev tr2.
Proof. unfold occurrences. by rewrite filter_app, length_app. Qed.

Lemma occurrences_io ev trace :
  is_session_io ev = false →
  Forall (λ x, is_session_io x = true) trace →
  occurrences ev trace = 0.
Proof.
  intros Hev. unfold occurrences. induction 1 as [|x trace Hx _ IH]; [done|].
  rewrite filter_cons_False; [done|]. intros ->. congruence.
Qed.

(** Once a receive raises something other than the idle timeout, the loop
    is left, whatever else happens first. *)
Lemma receive_loop_leaves t ws fuel sent received j e :
  receive_text_result t j = inr e → e ≠ TimeoutError →
  received ≤ j → j < received + fuel →
  ∃ e', (receive_loop t ws fuel sent received).1 = Some e'.
Proof.
  intros Hj He. revert sent received.
  induction fuel as [|fuel IH]; intros sent received Hle Hlt; [lia|].
  assert (Hnext : ∀ sent', received ≠ j →
            ∃ e', (receive_loop t ws fuel sent' (S received)).1 = Some e').
  { intros sent' Hne. apply IH; lia. }
  simpl. destruct (decide (received = j)) as [->|Hne].
  - rewrite Hj. destruct e; simpl; by eauto.
  - destruct (receive_text_result t received) as [data|e0].
    + destruct (send_json_result t sent) as [e0|].
      * destruct e0; simpl; eauto.
        destruct (send_json_result t (S sent)); simpl; eauto.
        destruct (Hnext (S (S sent)) Hne) as [e' He'].
        destruct (receive_loop t ws fuel (S (S sent)) (S received)). simpl in *. eauto.
      * destruct (Hnext (S sent) Hne) as [e' He'].
        destruct (receive_loop t ws fuel (S sent) (S received)). simpl in *. eauto.
    + destruct e0; simpl; eauto.
      destruct (send_json_result t sent); simpl; eauto.
      destruct (Hnext (S sent) Hne) as [e' He'].
      destruct (receive_loop t ws fuel (S sent) (S received)). simpl in *. eauto.
Qed.

Lemma occurrences_cons ev x (tr : list event) :
  occurrences ev (x :: tr) = (if decide (x = ev) then 1 else 0) + occurrences ev tr.
Proof.
  unfold occurrences. destruct (decide (x = ev)).
  - by rewrite filter_cons_True.
  - by rewrite filter_cons_False.
Qed.

Lemma occurrences_nil ev : occurrences ev [] = 0.
Proof. done. Qed.

Ltac count_events :=
  repeat first
    [rewrite occurrences_app | rewrite occurrences_cons | rewrite occurrences_nil];
  repeat case_decide; try done; try lia.

(** C3: a registered session that ends, by whichever exception [e] left the
    [try] (the client's close, a transport error, or the cancellation of a
    forced shutdown), has run [disconnect] once, as the last thing it did;
    a session still in its loop has not run it; and a receive that raises
    anything but the idle timeout does end the session. *)
Theorem cleanup_exactly_once t ws fuel active :
  accept_result t = None →
  (∀ r after trace,
     websocket_endpoint t ws fuel active = (Some r, after, trace) →
     ∃ e before,
       (try_body t ws fuel).1 = Some e ∧
       r = (if is_Exception e then Returns () else Raises e) ∧
       trace = before ++ [Acquire; Discard ws; Release] ∧
       occurrences (Add ws) before = 1 ∧
       occurrences (Discard ws) before = 0 ∧
       occurrences (Discard ws) trace = 1 ∧
       ws ∉ after) ∧
  (∀ after trace,
     websocket_endpoint t ws fuel active = (None, after, trace) →
     occurrences (Discard ws) trace = 0 ∧ ws ∈ after) ∧
  (∀ j e,
     receive_text_result t j = inr e → e ≠ TimeoutError → j < fuel →
     ∃ r after trace,
       websocket_endpoint t ws fuel active = (Some r, after, trace)).
Proof.
  intros Hacc. unfold websocket_endpoint, connect, disconnect. rewrite Hacc.
  pose proof (try_body_io t ws fuel) as Hio.
  split_and!.
  - intros r after trace Hrun.
    destruct (try_body t ws fuel) as [[e|] body]; [|done].
    injection Hrun as <- <- <-.
    exists e, ([Accept ws None; Acquire; Add ws; Release] ++ body).
    assert (Hadd : occurrences (Add ws) body = 0) by (by apply occurrences_io).
    assert (Hdis : occurrences (Discard ws) body = 0) by (by apply occurrences_io).
    split_and!; try done; try (simpl; count_events).
    set_solver.
  - intros after trace Hrun.
    destruct (try_body t ws fuel) as [[e|] body]; [done|].
    injection Hrun as <- <-.
    assert (Hdis : occurrences (Discard ws) body = 0) by (by apply occurrences_io).
    split; [|set_solver]. simpl. count_events.
  - intros j e Hj He Hlt.
    assert (∃ e', (try_body t ws fuel).1 = Some e') as [e' He'].
    { unfold try_body. destruct (send_json_result t 0); simpl; [by eauto|].
      destruct (receive_loop_leaves t ws fuel 1 0 j e Hj He) as [e' He']; [lia..|].
      destruct (receive_loop t ws fuel 1 0). simpl in *. eauto. }
    destruct (try_body t ws fuel) as [[e0|] body]; simpl in *; [|done].
    by eauto.
Qed.

Lemma cleanup_exactly_once_witness :
  Session.accept_result hello_idle_close = None ∧
  ∃ r after trace,
    websocket_endpoint hello_idle_close 7 5 {[3]} = (Some r, after, trace) ∧
    occurrences (Discard 7) trace = 1.
Proof.
  split; [reflexivity|].
  destruct (cleanup_exactly_once hello_idle_close 7 5 {[3]} eq_refl)
    as (Hdone & _ & Hleaves).
  destruct (Hleaves 2 WebSocketDisconnect eq_refl) as (r & after & trace & Hrun);
    [done|lia|].
  destruct (Hdone r after trace Hrun) as (e & before & _ & _ & _ & _ & _ & Honce & _).
  by exists r, after, trace.
Defined.

(** C10: when the handshake raises, the exception leaves [connect] and the
    handler at once: the connection is not added, [disconnect] is not run,
    and the set is the one before the call. *)
Theorem failed_handshake t ws fuel active e :
  accept_result t = Some e →
  connect (Some e) ws active = (Raises e, active, [Accept ws (Some e)]) ∧
  ∃ trace,
    websocket_endpoint t ws fuel active = (Some (Raises e), active, trace) ∧
    occurrences (Add ws) trace = 0 ∧
    occurrences (Discard ws) trace = 0 ∧
    Forall (λ ev, is_mutation ev = false) trace.
Proof.
  intros Hacc. split; [done|].
  exists [Accept ws (Some e)].
  unfold websocket_endpoint, connect. rewrite Hacc.
  split_and!; try done. by repeat constructor.
Qed.

Lemma failed_handshake_witness :
  Session.accept_result refused = Some RuntimeError ∧
  (websocket_endpoint refused 7 5 {[3]}).1.2 = {[3]}.
Proof.
  split; [reflexivity|].
  destruct (failed_handshake refused 7 5 {[3]} RuntimeError eq_refl)
    as (_ & trace & Hrun & _).
  by rewrite Hrun.
Defined.

(** While the sends return and the receives bring a text or the idle
    timeout, the loop goes on, and it has sent one reply for each receive. *)
Lemma receive_loop_replies t ws n sent received :
  (∀ i, sent ≤ i → i < sent + n → send_json_result t i = None) →
  (∀ j e, received ≤ j → j < received + n →
     receive_text_result t j = inr e → e = TimeoutError) →
  ∃ evs,
    receive_loop t ws n sent received = (None, evs) ∧
    sent_messages evs =
      map (λ k, spec_reply (receive_text_result t (received + k))
                  (now_isoformat t (sent + k))) (seq 0 n) ∧
    delivered evs = replicate n ws.
Proof.
  revert sent received. induction n as [|n IH]; intros sent received Hsend Hrecv.
  - by exists [].
  - destruct (IH (S sent) (S received)) as (evs & Hrun & Hmsgs & Hdel).
    { intros i ? ?. apply Hsend; lia. }
    { intros j e ? ?. apply Hrecv; lia. }
    assert (Hshift :
      map (λ k, spec_reply (receive_text_result t (received + k))
                  (now_isoformat t (sent + k))) (seq 1 n) = sent_messages evs).
    { rewrite Hmsgs, <- seq_shift, map_map. apply map_ext. intros k.
      by rewrite !Nat.add_succ_r. }
    simpl. rewrite Hshift, !Nat.add_0_r, (Hsend sent) by lia.
    destruct (receive_text_result t received) as [data|e] eqn:Hr.
    + rewrite Hrun. eexists. split; [done|]. simpl. by rewrite Hdel.
    + rewrite (Hrecv received e) by (done || lia). simpl.
      rewrite Hrun. eexists. split; [done|]. simpl. by rewrite Hdel.
Qed.

Lemma sent_messages_app (tr1 tr2 : list event) :
  sent_messages (tr1 ++ tr2) = sent_messages tr1 ++ sent_messages tr2.
Proof. induction tr1 as [|[] tr1 IH]; simpl; by f_equal. Qed.

Lemma spec_reply_type inbound ts :
  get "type" (spec_reply inbound ts) ≠ Some (JStr "welcome").
Proof. by destruct inbound. Qed.

(** Only the welcome message has the type "welcome". *)
Lemma receive_loop_no_welcome t ws fuel sent received :
  Forall (λ m, get "type" m ≠ Some (JStr "welcome"))
    (sent_messages (receive_loop t ws fuel sent received).2).
Proof.
  revert sent received. induction fuel as [|fuel IH]; intros sent received; simpl.
  - constructor.
  - destruct (receive_text_result t received) as [data|e].
    + destruct (send_json_result t sent) as [e|].
      * destruct e; simpl; try by repeat constructor.
        destruct (send_json_result t (S sent)); simpl.
        -- by repeat constructor.
        -- specialize (IH (S (S sent)) (S received)).
           destruct (receive_loop t ws fuel (S (S sent)) (S received)).
           by repeat constructor.
      * specialize (IH (S sent) (S received)).
        destruct (receive_loop t ws fuel (S sent) (S received)).
        by repeat constructor.
    + destruct e; simpl; try by repeat constructor.
      destruct (send_json_result t sent); simpl.
      * by repeat constructor.
      * specialize (IH (S sent) (S received)).
        destruct (receive_loop t ws fuel (S sent) (S received)).
        by repeat constructor.
Qed.

(** After [n] iterations that met no failure the loop goes on as a loop
    entered afresh with [n] more sends and receives behind it. *)
Lemma receive_loop_continue t ws n k sent received evs :
  (∀ i, sent ≤ i → i < sent + n → send_json_result t i = None) →
  (∀ j e, received ≤ j → j < received + n →
     receive_text_result t j = inr e → e = TimeoutError) →
  receive_loop t ws n sent received = (None, evs) →
  receive_loop t ws (n + k) sent received =
    ((receive_loop t ws k (sent + n) (received + n)).1,
     evs ++ (receive_loop t ws k (sent + n) (received + n)).2).
Proof.
  revert sent received evs.
  induction n as [|n IH]; intros sent received evs Hsend Hrecv.
  - intros [= <-]. rewrite !Nat.add_0_r. simpl.
    by destruct (receive_loop t ws k sent received).
  - assert (Hnext : ∀ evs',
      receive_loop t ws n (S sent) (S received) = (None, evs') →
      receive_loop t ws (n + k) (S sent) (S received) =
        ((receive_loop t ws k (sent + S n) (received + S n)).1,
         evs' ++ (receive_loop t ws k (sent + S n) (received + S n)).2)).
    { intros evs' Hrun. rewrite !Nat.add_succ_r. apply IH; [| |done].
      - intros i ? ?. apply Hsend; lia.
      - intros j e ? ?. apply Hrecv; lia. }
    simpl. rewrite (Hsend sent) by lia.
    destruct (receive_text_result t received) as [data|e] eqn:Hr.
    + destruct (receive_loop t ws n (S sent) (S received)) as [x evs'] eqn:Hrun.
      intros [= -> <-]. by rewrite (Hnext evs' eq_refl).
    + rewrite (Hrecv received e) by (done || lia). simpl.
      destruct (receive_loop t ws n (S sent) (S received)) as [x evs'] eqn:Hrun.
      intros [= -> <-]. by rewrite (Hnext evs' eq_refl).
Qed.

(** An iteration begins with the receive. *)
Lemma receive_loop_begins t ws fuel sent received :
  ∃ rest,
    (receive_loop t ws (S fuel) sent received).2 =
      ReceiveText ws (receive_text_result t received) :: rest.
Proof.
  simpl. destruct (receive_text_result t received) as [data|e].
  - destruct (send_json_result t sent) as [e|].
    + destruct e; simpl; eauto.
      destruct (send_json_result t (S sent)); simpl; eauto.
      destruct (receive_loop t ws fuel (S (S sent)) (S received)); simpl; eauto.
    + destruct (receive_loop t ws fuel (S sent) (S received)); simpl; eauto.
  - destruct e; simpl; eauto.
    destruct (send_json_result t sent); simpl; eauto.
    destruct (receive_loop t ws fuel (S sent) (S received)); simpl; eauto.
Qed.

(** C6: take a session whose first [n] receives bring a text or the idle
    timeout and whose sends return until then.  What the handler has done
    up to the [n]-th reply is [served]: it has sent the welcome message,
    once and first, then one reply for each receive in order, the echo of
    the text or a ping.  It is then still in its loop: it stops there when
    the fuel ends, and otherwise goes on to the next receive.  Whatever
    follows, no second welcome is sent. *)
Theorem session_messages t ws n fuel active :
  accept_result t = None →
  (∀ i, i ≤ n → send_json_result t i = None) →
  (∀ j e, j < n → receive_text_result t j = inr e → e = TimeoutError) →
  n ≤ fuel →
  ∃ status after served rest,
    websocket_endpoint t ws fuel active = (status, after, served ++ rest) ∧
    sent_messages served =
      welcome (now_isoformat t 0)
      :: map (λ j, spec_reply (receive_text_result t j) (now_isoformat t (S j)))
           (seq 0 n) ∧
    delivered served = replicate (S n) ws ∧
    occurrences (Discard ws) served = 0 ∧
    (fuel = n → status = None ∧ rest = []) ∧
    (n < fuel → ∃ rest', rest = ReceiveText ws (receive_text_result t n) :: rest') ∧
    length (filter (λ m, get "type" m = Some (JStr "welcome"))
              (sent_messages (served ++ rest))) = 1 ∧
    (∀ ts, welcome ts =
       [("type", JStr "welcome"); ("message", JStr "Connected to WebSocket server");
        ("timestamp", JStr ts)]%string) ∧
    (∀ m ts, spec_reply (inl m) ts =
       [("type", JStr "echo"); ("message", JStr ("Server received: " +:+ m));
        ("timestamp", JStr ts)]%string) ∧
    (∀ ts, spec_reply (inr TimeoutError) ts =
       [("type", JStr "ping"); ("timestamp", JStr ts)]%string).
Proof.
  intros Hacc Hsend Hrecv Hfuel.
  destruct (receive_loop_replies t ws n 1 0) as (evs & Hrun & Hmsgs & Hdel).
  { intros i ? ?. apply Hsend. lia. }
  { intros j e ? ?. apply Hrecv. lia. }
  pose proof (receive_loop_continue t ws n (fuel - n) 1 0 evs) as Hcont.
  replace (n + (fuel - n)) with fuel in Hcont by lia.
  specialize (Hcont ltac:(intros i ? ?; apply Hsend; lia)
                    ltac:(intros j e ? ?; apply Hrecv; lia) Hrun).
  cbn [plus] in Hcont.
  pose proof (receive_loop_no_welcome t ws (fuel - n) (S n) n) as Hnw.
  pose proof (receive_loop_io t ws n 1 0) as Hio. rewrite Hrun in Hio. simpl in Hio.
  assert (Hbegin : n < fuel → ∃ rest',
            (receive_loop t ws (fuel - n) (S n) n).2 =
              ReceiveText ws (receive_text_result t n) :: rest').
  { intros Hlt. replace (fuel - n) with (S (fuel - n - 1)) by lia.
    apply receive_loop_begins. }
  assert (Hend : fuel = n → receive_loop t ws (fuel - n) (S n) n = (None, [])).
  { intros ->. by rewrite Nat.sub_diag. }
  destruct (receive_loop t ws (fuel - n) (S n) n) as [x more]. simpl in *.
  set (served := [Accept ws None; Acquire; Add ws; Release]
                 ++ SendJson ws (welcome (now_isoformat t 0)) None :: evs).
  assert (Hserved : sent_messages served =
            welcome (now_isoformat t 0)
            :: map (λ j, spec_reply (receive_text_result t j) (now_isoformat t (S j)))
                 (seq 0 n)).
  { subst served. simpl. by rewrite Hmsgs. }
  assert (Hnone : occurrences (Discard ws) served = 0).
  { subst served.
    assert (occurrences (Discard ws) evs = 0) by (by apply occurrences_io).
    count_events. }
  assert (Hone : ∀ rest,
            Forall (λ m, get "type" m ≠ Some (JStr "welcome")) (sent_messages rest) →
            length (filter (λ m, get "type" m = Some (JStr "welcome"))
                      (sent_messages (served ++ rest))) = 1).
  { intros rest Hrest. rewrite sent_messages_app, Hserved, filter_app, length_app.
    rewrite filter_cons_True by done. cbn [length].
    assert (Hzero : ∀ l, Forall (λ m, get "type" m ≠ Some (JStr "welcome")) l →
              length (filter (λ m, get "type" m = Some (JStr "welcome")) l) = 0).
    { induction 1 as [|m l Hm _ IH]; [done|]. by rewrite filter_cons_False. }
    rewrite !Hzero; [done|done|].
    apply Forall_forall. intros m [j [-> _]]%list_elem_of_fmap. apply spec_reply_type. }
  unfold websocket_endpoint, connect, try_body, disconnect.
  rewrite Hacc, (Hsend 0), Hcont by lia.
  destruct x as [e|].
  - exists (Some (if is_Exception e then Returns () else Raises e)),
      (({[ws]} ∪ active) ∖ {[ws]}), served, (more ++ [Acquire; Discard ws; Release]).
    split_and!; [|exact Hserved| |exact Hnone| | | |done..].
    + subst served. simpl. by rewrite <- ?(assoc_L (++)).
    + subst served. simpl. by rewrite Hdel.
    + intros Hn. by specialize (Hend Hn).
    + intros Hlt. destruct (Hbegin Hlt) as [rest' ->]. by eexists.
    + apply Hone. rewrite sent_messages_app. simpl. by rewrite (right_id_L [] (++)).
  - exists None, ({[ws]} ∪ active), served, more.
    split_and!; [|exact Hserved| |exact Hnone| | | |done..].
    + subst served. simpl. by rewrite <- ?(assoc_L (++)).
    + subst served. simpl. by rewrite Hdel.
    + intros Hn. specialize (Hend Hn). by injection Hend as ->.
    + done.
    + by apply Hone.
Qed.

Lemma session_messages_witness :
  Session.accept_result hello_idle_close = None ∧
  (∀ i, i ≤ 2 → Session.send_json_result hello_idle_close i = None) ∧
  (∀ j e, j < 2 →
     Session.receive_text_result hello_idle_close j = inr e → e = TimeoutError) ∧
  2 ≤ 5 ∧
  ∃ status after served rest,
    websocket_endpoint hello_idle_close 7 5 ∅ = (status, after, served ++ rest) ∧
    sent_messages served = [welcome "0"; echo "hello" "1"; ping "2"].
Proof.
  assert (H1 : ∀ i, i ≤ 2 → Session.send_json_result hello_idle_close i = None)
    by done.
  assert (H2 : ∀ j e, j < 2 →
            Session.receive_text_result hello_idle_close j = inr e → e = TimeoutError).
  { intros [|[|j]] e Hj; simpl; [done| |lia]. by intros [= <-]. }
  assert (H3 : 2 ≤ 5) by lia.
  split_and!; [reflexivity|exact H1|exact H2|exact H3|].
  destruct (session_messages hello_idle_close 7 2 5 ∅ eq_refl H1 H2 H3)
    as (status & after & served & rest & Hrun & Hmsgs & _).
  exists status, after, served, rest. split; [exact Hrun|exact Hmsgs].
Defined.

End session.

(** ** The shutdown coordinator *)

Section shutdown.

Import GracefulShutdownManager.

Implicit Types (o : observations) (timeout start : Z) (fuel k : nat).

(** [timedelta] by its bounds in microseconds, and [timedelta(minutes=m)] by
    its bounds in minutes. *)
Lemma timedelta_returns (x : Z) :
  (-86399999913600000000 ≤ x ≤ 86399999999999999999)%Z →
  timedelta x = Returns x.
Proof. intros Hx. unfold timedelta. rewrite decide_True; [done|lia]. Qed.

Lemma timedelta_raises (x : Z) :
  (x < -86399999913600000000 ∨ 86399999999999999999 < x)%Z →
  timedelta x = Raises OverflowError.
Proof. intros Hx. unfold timedelta. rewrite decide_False; [done|lia]. Qed.

Lemma timedelta_cases (x : Z) :
  (-86399999913600000000 ≤ x ≤ 86399999999999999999)%Z ∧ timedelta x = Returns x ∨
  (x < -86399999913600000000 ∨ 86399999999999999999 < x)%Z ∧
    timedelta x = Raises OverflowError.
Proof.
  destruct (decide (-86399999913600000000 ≤ x ≤ 86399999999999999999)%Z).
  - left. split; [done|]. by apply timedelta_returns.
  - right. split; [lia|]. apply timedelta_raises. lia.
Qed.

Lemma minutes_returns (m : Z) :
  (-1439999998560 ≤ m ≤ 1439999999999)%Z →
  minutes m = Returns (m * 60000000)%Z.
Proof. intros Hm. unfold minutes. apply timedelta_returns. lia. Qed.

Lemma minutes_raises (m : Z) :
  (m < -1439999998560 ∨ 1439999999999 < m)%Z →
  minutes m = Raises OverflowError.
Proof. intros Hm. unfold minutes. apply timedelta_raises. lia. Qed.

(** With more fuel the loop is left in the same way. *)
Lemma poll_loop_fuel_mono o timeout start fuel fuel' k x evs :
  poll_loop o timeout start fuel k = (Some x, evs) → fuel ≤ fuel' →
  poll_loop o timeout start fuel' k = (Some x, evs).
Proof.
  revert fuel' k evs. induction fuel as [|fuel IH]; intros fuel' k evs; simpl; [done|].
  intros Hrun Hle. destruct fuel' as [|fuel']; [lia|]. simpl.
  destruct (timedelta (timeout - (now o (S k) - start))); [|done].
  repeat case_decide; try done.
  destruct (sleep_result o k); [done|].
  destruct (poll_loop o timeout start fuel (S k)) as [[y|] evs'] eqn:Hrec; [|done].
  injection Hrun as -> <-.
  rewrite (IH fuel' (S k) evs' Hrec) by lia. done.
Qed.

(** If the timeout has passed by the last iteration the fuel allows, and up
    to there no sleep raises and the remaining time is a [timedelta], the
    loop is left by a [break], at the first iteration that sees no
    connection or sees the timeout passed. *)
Lemma poll_loop_exits o timeout start fuel k :
  (timeout ≤ now o (S (k + fuel)) - start)%Z →
  (∀ j, k ≤ j ≤ k + fuel →
     (-86399999913600000000 ≤ timeout - (now o (S j) - start)
      ≤ 86399999999999999999)%Z) →
  (∀ j, k ≤ j < k + fuel → sleep_result o j = None) →
  ∃ path k' evs,
    poll_loop o timeout start (S fuel) k = (Some (Returns path, k'), evs) ∧
    k ≤ k' ≤ k + fuel ∧
    (∀ j, k ≤ j → j < k' →
       connection_count o j ≠ 0 ∧ (now o (S j) - start < timeout)%Z) ∧
    match path with
    | Graceful => connection_count o k' = 0
    | Forced => connection_count o k' ≠ 0 ∧ (timeout ≤ now o (S k') - start)%Z
    end.
Proof.
  revert k. induction fuel as [|fuel IH]; intros k Hlast Hrem Hsleep.
  - rewrite Nat.add_0_r in Hlast. simpl.
    rewrite timedelta_returns by (apply Hrem; lia).
    destruct (decide (connection_count o k = 0)) as [Hc|Hc].
    + exists Graceful, k. eexists. split_and!; [done|lia..|intros; lia|done].
    + rewrite decide_True by done.
      exists Forced, k. eexists. split_and!; [done|lia..|intros; lia|done].
  - destruct (IH (S k)) as (path & k' & evs & Hrun & Hk & Hbefore & Hexit).
    { by replace (S k + fuel) with (k + S fuel) by lia. }
    { intros j Hj. apply Hrem. lia. }
    { intros j Hj. apply Hsleep. lia. }
    remember (S fuel) as fuel1 eqn:Hfuel1. cbn [poll_loop].
    rewrite timedelta_returns by (apply Hrem; lia).
    destruct (decide (connection_count o k = 0)) as [Hc|Hc].
    { exists Graceful, k. eexists. split_and!; [done|lia..|intros; lia|done]. }
    destruct (decide (timeout ≤ now o (S k) - start)%Z) as [Ht|Ht].
    { exists Forced, k. eexists. split_and!; [done|lia..|intros; lia|done]. }
    rewrite (Hsleep k) by lia.
    rewrite Hrun. exists path, k'. eexists. split_and!; [done|lia..| |done].
    intros j Hj Hjk. destruct (decide (j = k)) as [->|Hne].
    + split; [done|lia].
    + apply Hbefore; lia.
Qed.

(** The clock of a loop whose first [n] iterations are at least [δ] apart. *)
Lemma elapsed_lower_bound o (δ : Z) n k :
  (now o 0 ≤ now o 1)%Z →
  (∀ j, j < n → (now o (S j) + δ ≤ now o (S (S j)))%Z) →
  k ≤ n →
  (Z.of_nat k * δ ≤ now o (S k) - now o 0)%Z.
Proof.
  intros H0 Hstep. induction k as [|k IH]; intros Hk; [lia|].
  specialize (Hstep k ltac:(lia)). lia.
Qed.

(** The default timeout is 30 minutes, 360 poll intervals. *)
Example default_timeout :
  minutes (timeout_minutes shutting_down) = Returns (360 * poll_interval)%Z ∧
  minutes (timeout_minutes shutting_down) = Returns (30 * 60 * 1000000)%Z.
Proof. done. Qed.

(** If the timeout has passed by the last iteration the fuel allows, the
    loop is left by then, by a [break] or by an exception. *)
Lemma poll_loop_ends o timeout start fuel k :
  (timeout ≤ now o (S (k + fuel)) - start)%Z →
  ∃ r k' evs,
    poll_loop o timeout start (S fuel) k = (Some (r, k'), evs) ∧ k ≤ k' ≤ k + fuel.
Proof.
  revert k. induction fuel as [|fuel IH]; intros k Hlast.
  - rewrite Nat.add_0_r in Hlast. simpl.
    destruct (timedelta (timeout - (now o (S k) - start))).
    + destruct (decide (connection_count o k = 0)).
      * eexists _, k, _. split; [done|lia].
      * rewrite decide_True by done. eexists _, k, _. split; [done|lia].
    + eexists _, k, _. split; [done|lia].
  - destruct (IH (S k)) as (r & k' & evs & Hrun & Hk).
    { by replace (S k + fuel) with (k + S fuel) by lia. }
    remember (S fuel) as fuel1 eqn:Hfuel1. cbn [poll_loop].
    destruct (timedelta (timeout - (now o (S k) - start)));
      [|eexists _, k, _; split; [done|lia]].
    destruct (decide (connection_count o k = 0));
      [eexists _, k, _; split; [done|lia]|].
    destruct (decide (timeout ≤ now o (S k) - start)%Z);
      [eexists _, k, _; split; [done|lia]|].
    destruct (sleep_result o k); [eexists _, k, _; split; [done|lia]|].
    rewrite Hrun. eexists _, k', _. split; [done|lia].
Qed.

(** C4: the wait on an initiated shutdown ends.  The timeout is
    [timeout_minutes] minutes, counted in microseconds from the
    [start_time] that [wait_for_shutdown] reads.  If the clock moves on by
    at least [δ] between two iterations for as long as the wait needs, the
    wait is over within [timeout / δ + 2] iterations, whatever else
    happens.  If moreover [timedelta(minutes=...)] accepts the timeout, no
    sleep is interrupted by an exception and the remaining time computed for
    the log line stays a [timedelta], the wait returns with the event set,
    and the loop is left at the first iteration that reads a count of zero
    (the graceful exit, also when the timeout has passed by then) or else at
    the first one whose clock is at or past the timeout (the forced exit,
    never before the timeout and less than one iteration after it). *)
Theorem wait_for_shutdown_terminates self o (δ : Z) :
  let timeout := (timeout_minutes self * 60 * 1000000)%Z in
  let elapsed := λ k, (now o (S k) - now o 0)%Z in
  let bound := Z.to_nat (timeout / δ) + 1 in
  shutdown_initiated self = true →
  (0 < δ)%Z →
  (now o 0 ≤ now o 1)%Z →
  (∀ j, j < bound → (now o (S j) + δ ≤ now o (S (S j)))%Z) →
  ∃ self' r trace,
    (∀ fuel, bound < fuel → wait_for_shutdown self o fuel = (Some (self', r), trace)) ∧
    ((-1439999998560 ≤ timeout_minutes self ≤ 1439999999999)%Z →
     (∀ j, j < bound → sleep_result o j = None) →
     (∀ j, j ≤ bound → (-86399999913600000000 ≤ timeout - elapsed j)%Z) →
     ∃ path k,
       r = Returns (Some (path, k)) ∧
       k ≤ bound ∧
       shutdown_event self' = true ∧
       (∀ j, j < k → connection_count o j ≠ 0 ∧ (elapsed j < timeout)%Z) ∧
       (connection_count o k = 0 → path = Graceful) ∧
       (path = Graceful → connection_count o k = 0) ∧
       (path = Forced →
          (timeout ≤ elapsed k)%Z ∧
          (0 < k → (elapsed k < timeout + (now o (S k) - now o k))%Z))).
Proof.
  intros timeout elapsed bound Hinit Hδ H0 Hstep.
  assert (Hlow : ∀ j, j ≤ bound → (Z.of_nat j * δ ≤ elapsed j)%Z).
  { intros j Hj. by apply (elapsed_lower_bound o δ bound j). }
  assert (Hbound : (timeout ≤ now o (S (0 + bound)) - now o 0)%Z).
  { specialize (Hlow bound ltac:(lia)).
    pose proof (Z.mul_succ_div_gt timeout δ Hδ) as Hdiv.
    assert (timeout / δ + 1 ≤ Z.of_nat bound)%Z by (subst bound; lia).
    subst elapsed. simpl in *. nia. }
  destruct (decide (-1439999998560 ≤ timeout_minutes self ≤ 1439999999999)%Z)
    as [Hrange|Hrange].
  - destruct (poll_loop_ends o timeout (now o 0) bound 0 Hbound)
      as (r & k & evs & Hrun & _).
    assert (Hwait : ∀ fuel, bound < fuel →
              wait_for_shutdown self o fuel =
                match r with
                | Returns path =>
                    (Some ({| timeout_minutes := timeout_minutes self;
                              shutdown_initiated := shutdown_initiated self;
                              shutdown_event := true |}, Returns (Some (path, k))),
                     evs ++ [SetEvent])
                | Raises e => (Some (self, Raises e), evs)
                end).
    { intros fuel Hfuel. unfold wait_for_shutdown. rewrite Hinit. simpl.
      rewrite minutes_returns by done.
      replace (timeout_minutes self * 60000000)%Z with timeout by (subst timeout; lia).
      rewrite (poll_loop_fuel_mono _ _ _ (S bound) fuel 0 _ _ Hrun) by lia.
      by destruct r. }
    assert (Hexits : (∀ j, j < bound → sleep_result o j = None) →
              (∀ j, j ≤ bound → (-86399999913600000000 ≤ timeout - elapsed j)%Z) →
              ∃ path, r = Returns path ∧
                (∀ j, j < k → connection_count o j ≠ 0 ∧ (elapsed j < timeout)%Z) ∧
                k ≤ bound ∧
                match path with
                | Graceful => connection_count o k = 0
                | Forced => connection_count o k ≠ 0 ∧ (timeout ≤ elapsed k)%Z
                end).
    { intros Hsleep Hrem.
      destruct (poll_loop_exits o timeout (now o 0) bound 0 Hbound)
        as (path & k' & evs' & Hrun' & Hk' & Hbefore & Hexit).
      { intros j Hj. specialize (Hlow j ltac:(lia)). specialize (Hrem j ltac:(lia)).
        subst elapsed timeout. simpl in *. nia. }
      { intros j Hj. apply Hsleep. lia. }
      rewrite Hrun in Hrun'. injection Hrun' as -> -> _.
      exists path. split_and!; [done| |lia|done].
      intros j Hj. apply Hbefore; lia. }
    destruct r as [path|e].
    + eexists _, _, _. split; [exact Hwait|].
      intros _ Hsleep Hrem.
      destruct (Hexits Hsleep Hrem) as (path' & [= <-] & Hbefore & Hk & Hexit).
      exists path, k. split_and!; [done|done|done|done| | |].
      * intros Hc. destruct path; [done|]. by destruct Hexit.
      * intros ->. done.
      * intros ->. destruct Hexit as [_ Ht]. split; [done|].
        intros Hpos. destruct k as [|k]; [lia|].
        destruct (Hbefore k) as [_ Hprev]; [lia|]. subst elapsed. simpl in *. lia.
    + eexists _, _, _. split; [exact Hwait|].
      intros _ Hsleep Hrem. by destruct (Hexits Hsleep Hrem) as (path' & [=] & _).
  - exists self, (Raises OverflowError), []. split; [|done].
    intros fuel _. unfold wait_for_shutdown. rewrite Hinit. simpl.
    rewrite minutes_raises by lia. done.
Qed.

Lemma wait_for_shutdown_terminates_witness :
  shutdown_initiated shutting_down = true ∧
  (0 < poll_interval)%Z ∧
  (now stubborn_client 0 ≤ now stubborn_client 1)%Z ∧
  (∀ j, j < 361 →
     (now stubborn_client (S j) + poll_interval ≤ now stubborn_client (S (S j)))%Z) ∧
  (-1439999998560 ≤ timeout_minutes shutting_down ≤ 1439999999999)%Z ∧
  (∀ j, j < 361 → sleep_result stubborn_client j = None) ∧
  (∀ j, j ≤ 361 →
     (-86399999913600000000
      ≤ 30 * 60 * 1000000 - (now stubborn_client (S j) - now stubborn_client 0))%Z) ∧
  ∃ self' trace,
    wait_for_shutdown shutting_down stubborn_client 400
      = (Some (self', Returns (Some (Forced, 360))), trace) ∧
    shutdown_event self' = true.
Proof.
  assert (Hstep : ∀ j, j < 361 → (now stubborn_client (S j) + poll_interval
                                   ≤ now stubborn_client (S (S j)))%Z).
  { intros j _. unfold poll_interval. simpl now. rewrite !Nat.sub_0_r. lia. }
  assert (Hsleep : ∀ j, j < 361 → sleep_result stubborn_client j = None) by done.
  assert (Hrem : ∀ j, j ≤ 361 →
     (-86399999913600000000
      ≤ 30 * 60 * 1000000 - (now stubborn_client (S j) - now stubborn_client 0))%Z).
  { intros j Hj. simpl now. rewrite !Nat.sub_0_r. lia. }
  assert (Hrange : (-1439999998560 ≤ timeout_minutes shutting_down ≤ 1439999999999)%Z)
    by (by vm_compute).
  assert (H0 : (now stubborn_client 0 ≤ now stubborn_client 1)%Z) by (by vm_compute).
  split; [reflexivity|]. split; [reflexivity|]. split; [exact H0|].
  split; [exact Hstep|]. split; [exact Hrange|]. split; [exact Hsleep|].
  split; [exact Hrem|].
  destruct (wait_for_shutdown_terminates shutting_down stubborn_client poll_interval
              eq_refl eq_refl H0 Hstep)
    as (self' & r & trace & Hrun & Hexits).
  destruct (Hexits Hrange Hsleep Hrem) as (path & k & -> & _ & Hev & _).
  specialize (Hrun 400 ltac:(vm_compute; lia)).
  assert (Hexit : (wait_for_shutdown shutting_down stubborn_client 400).1
                  = Some (GracefulShutdownManager.Build_t 30 true true,
                          Returns (Some (Forced, 360))))
    by (vm_compute; reflexivity).
  rewrite Hrun in Hexit. simpl in Hexit. injection Hexit as Hs -> ->.
  by eexists _, _.
Defined.

(** C8: [wait_for_shutdown] on a manager whose shutdown was not initiated
    returns at once: it reads no count, does not sleep, and leaves the
    manager as it was. *)
Theorem wait_before_initiate self o fuel :
  shutdown_initiated self = false →
  wait_for_shutdown self o fuel = (Some (self, Returns None), []).
Proof. intros Hinit. unfold wait_for_shutdown. by rewrite Hinit. Qed.

Lemma wait_before_initiate_witness :
  shutdown_initiated shutdown_manager = false ∧
  wait_for_shutdown shutdown_manager stubborn_client 0
    = (Some (shutdown_manager, Returns None), []).
Proof.
  split; [reflexivity|].
  exact (wait_before_initiate shutdown_manager stubborn_client 0 eq_refl).
Defined.

End shutdown.

(** ** The notification scheduler *)

Section scheduler.

Import ConnectionManager Broadcaster.





End scheduler.

(** ** The lock *)

Section lock.

Import Tasks.

Implicit Types (s : state) (p : pc) (me : nat) (io : option exn).

(** A call run alone through its statements does what the call of
    [ConnectionManager] does. *)
Lemma drive_done r x send fuel s :
  tasks s = [Done r] → drive x send fuel s = (s, []).
Proof. intros Hs. destruct fuel; [done|]. unfold drive, step. by rewrite Hs. Qed.

Lemma connect_alone x send ws (active : gset nat) fuel :
  let '(r, after, evs) := ConnectionManager.connect x ws active in
  drive x send (4 + fuel) (alone (ConnectAccept ws) active)
    = (alone (Done r) after, evs).
Proof. destruct x as [e|]; cbn; rewrite ?(drive_done _ _ _ fuel) by done; done. Qed.

Lemma disconnect_alone x send ws (active : gset nat) fuel :
  let '(r, after, evs) := ConnectionManager.disconnect ws active in
  drive x send (3 + fuel) (alone (DisconnectAcquire ws) active)
    = (alone (Done r) after, evs).
Proof. cbn. rewrite ?(drive_done _ _ _ fuel) by done. done. Qed.

Lemma broadcast_for_alone x send message todo (disconnected active : gset nat) fuel :
  length todo + 4 ≤ fuel →
  drive x send fuel (alone (BroadcastFor message todo disconnected) active) =
    match ConnectionManager.send_all send message todo disconnected with
    | (Raises e, evs) => (alone (Done (Raises e)) active, evs)
    | (Returns d, evs) =>
        if decide (d = ∅) then (alone (Done (Returns ())) active, evs)
        else (alone (Done (Returns ())) (active ∖ d),
              evs ++ [Acquire; Subtract d; Release])
    end.
Proof.
  revert disconnected fuel.
  induction todo as [|h todo IH]; intros D fuel Hfuel.
  - destruct fuel as [|[|[|[|fuel]]]]; [simpl in Hfuel; lia..|].
    cbn. destruct (decide (D = ∅)); cbn; rewrite ?(drive_done _ _ _ fuel) by done; done.
  - destruct fuel as [|fuel]; [simpl in Hfuel; lia|]. simpl in Hfuel.
    specialize (IH ({[h]} ∪ D) fuel ltac:(lia)) as IHfail.
    specialize (IH D fuel ltac:(lia)) as IHok.
    unfold alone in *. cbn. destruct (send h) as [e|] eqn:Hh.
    + destruct (is_Exception e).
      * rewrite IHfail.
        destruct (ConnectionManager.send_all send message todo ({[h]} ∪ D))
          as [[d|e'] evs]; [|done].
        by destruct (decide (d = ∅)).
      * rewrite ?(drive_done _ _ _ fuel) by done. done.
    + rewrite IHok.
      destruct (ConnectionManager.send_all send message todo D) as [[d|e'] evs]; [|done].
      by destruct (decide (d = ∅)).
Qed.

(** A broadcast run on its own, statement by statement: within
    [size active + 8] statements the call is done, with the result, the set
    and the operations of [ConnectionManager.broadcast], and with the lock
    free, whatever the sends do. *)
Lemma broadcast_alone x send message (active : gset nat) fuel :
  let '(r, after, evs) := ConnectionManager.broadcast send message active in
  drive x send (size active + 8 + fuel) (alone (BroadcastTest message) active)
    = (alone (Done r) after, evs).
Proof.
  unfold ConnectionManager.broadcast.
  replace (size active + 8 + fuel) with (4 + (size active + 4 + fuel)) by lia.
  pose proof (broadcast_for_alone x send message (elements active) ∅ active
                (size active + 4 + fuel)) as Hfor.
  unfold alone in *. cbn.
  destruct (decide (active = ∅)) as [Hempty|Hne]; cbn.
  - rewrite ?(drive_done _ _ _ (size active + 3 + fuel)) by done. done.
  - rewrite Hfor by (unfold size, set_size; simpl; lia).
    destruct (ConnectionManager.send_all send message (elements active) ∅)
      as [[d|e'] evs]; [|done].
    by destruct (decide (d = ∅)).
Qed.

Lemma exec_lock me io p active lk p' active' lk' evs :
  exec me io p active lk = Some (p', active', lk', evs) →
  (in_critical_section p = true ↔ lk = Some me) →
  (in_critical_section p' = true ↔ lk' = Some me) ∧
  (∀ j, j ≠ me → lk' = Some j ↔ lk = Some j) ∧
  (∀ ev, ev ∈ evs → is_transport_io ev = true → lk ≠ Some me ∧ lk' = lk) ∧
  (∀ ev, ev ∈ evs → is_membership_op ev = true → lk = Some me) ∧
  (∀ ev, ev ∈ evs → lk = Some me → is_membership_op ev = true ∨ ev = Release).
Proof.
  intros Hexec Hp.
  destruct p; simpl in Hexec;
    repeat match type of Hexec with
           | context [match ?x with _ => _ end] => destruct x eqn:?
           end;
    simplify_eq; simpl in *;
    (split_and!;
     [ naive_solver
     | intros j Hj; naive_solver
     | intros ev Hev Hio; set_unfold; naive_solver
     | intros ev Hev Hop; set_unfold; naive_solver
     | intros ev Hev Hlk; set_unfold; naive_solver ]).
Qed.

Lemma step_lock s me io s' log :
  lock_inv s → step s me io = Some (s', log) →
  lock_inv s' ∧
  (∀ j, j ≠ me → lock s' = Some j ↔ lock s = Some j) ∧
  (∀ en, en ∈ log → who en = me ∧ lock_then en = lock s ∧ disciplined en).
Proof.
  intros Hinv. unfold step.
  destruct (tasks s !! me) as [p|] eqn:Hme; [|done].
  destruct (exec me io p (active_connections s) (lock s))
    as [[[[p' active'] lk'] evs]|] eqn:Hexec; [|done].
  intros [= <- <-].
  destruct (exec_lock _ _ _ _ _ _ _ _ _ Hexec (Hinv me p Hme))
    as (Hp' & Hothers & Hio & Hop & Hheld).
  split_and!.
  - intros i q. simpl. destruct (decide (i = me)) as [->|Hne].
    + rewrite list_lookup_insert_eq by (by eapply lookup_lt_Some).
      by intros [= <-].
    + rewrite list_lookup_insert_ne by done. intros Hq.
      rewrite (Hinv i q Hq). symmetry. by apply Hothers.
  - done.
  - intros en [ev [-> Hev]]%list_elem_of_fmap. unfold disciplined. simpl.
    split_and!; try done.
    + intros Hev'. by apply (Hio ev).
    + by apply Hop.
    + by apply Hheld.
Qed.

Lemma run_lock schedule s s' log :
  lock_inv s → run s schedule = Some (s', log) →
  lock_inv s' ∧ ∀ en, en ∈ log → disciplined en.
Proof.
  revert s log. induction schedule as [|[me io] schedule IH]; intros s log Hinv; simpl.
  - intros [= <- <-]. split; [done|]. by intros en ?%not_elem_of_nil.
  - destruct (step s me io) as [[s1 log1]|] eqn:Hstep; [|done].
    destruct (step_lock _ _ _ _ _ Hinv Hstep) as (Hinv1 & _ & Hlog1).
    destruct (run s1 schedule) as [[s2 log2]|] eqn:Hrun; [|done].
    intros [= <- <-].
    destruct (IH _ _ Hinv1 Hrun) as [Hinv2 Hlog2].
    split; [done|]. intros en [Hen|Hen]%elem_of_app.
    + by apply Hlog1.
    + by apply Hlog2.
Qed.

(** Under a cooperative schedule the holder of the lock is the call that
    ran last, so the lock is free whenever another call runs. *)
Lemma run_cooperative schedule s last s' log :
  lock_inv s → (∀ j, lock s = Some j → last = Some j) →
  cooperative s last schedule = true →
  run s schedule = Some (s', log) →
  ∀ en, en ∈ log → is_transport_io (what en) = true → lock_then en = None.
Proof.
  revert s last log.
  induction schedule as [|[me io] schedule IH]; intros s last log Hinv Hlast; simpl.
  - intros _ [= <- <-]. by intros en ?%not_elem_of_nil.
  - destruct (step s me io) as [[s1 log1]|] eqn:Hstep; [|done].
    destruct (step_lock _ _ _ _ _ Hinv Hstep) as (Hinv1 & Hothers & Hlog1).
    intros [Hswitch Hcoop]%andb_true_iff.
    destruct (run s1 schedule) as [[s2 log2]|] eqn:Hrun; [|done].
    intros [= <- <-].
    assert (Hholder : ∀ j, lock s = Some j → j = me).
    { intros j Hj. pose proof (Hlast j Hj) as ->.
      apply orb_true_iff in Hswitch as [Heq|Hyield].
      - by apply bool_decide_eq_true in Heq.
      - destruct (tasks s !! j) as [q|] eqn:Hq; [|done].
        apply (Hinv j q Hq) in Hj. by destruct q. }
    intros en [Hen|Hen]%elem_of_app.
    + destruct (Hlog1 en Hen) as (Hwho & Hthen & Hio & _). intros Hev.
      specialize (Hio Hev). rewrite Hthen, Hwho in *.
      destruct (lock s) as [j|] eqn:Hlk; [|done].
      by rewrite (Hholder j eq_refl) in Hio.
    + eapply (IH s1 (Some me)); [done| |done|done|done].
      intros j Hj. destruct (decide (j = me)) as [->|Hne]; [done|].
      apply (Hothers j Hne) in Hj. by apply Hholder in Hj.
Qed.

Lemma initial_lock_inv s : initial s → lock_inv s.
Proof.
  intros [Hfree Hout] i p Hp. rewrite Hfree, (Hout i p Hp). naive_solver.
Qed.

(** C5: in every interleaving of [connect], [disconnect] and [broadcast]
    calls, a call that holds the lock does not use the transport, and under
    asyncio's cooperative scheduling the lock is free whenever a call runs
    an accept or a send; what a call does while it holds the lock is one
    membership operation (add, discard, copy, subtract) and the release; the
    set is read for the snapshot and changed only by the holder of the lock;
    and no two calls are inside a critical section at once. *)
Theorem lock_discipline s0 schedule s log :
  initial s0 →
  run s0 schedule = Some (s, log) →
  (∀ en, en ∈ log → is_transport_io (what en) = true →
     lock_then en ≠ Some (who en)) ∧
  (cooperative s0 None schedule = true →
     ∀ en, en ∈ log → is_transport_io (what en) = true → lock_then en = None) ∧
  (∀ en, en ∈ log → lock_then en = Some (who en) →
     is_membership_op (what en) = true ∨ what en = Release) ∧
  (∀ en, en ∈ log → is_membership_op (what en) = true →
     lock_then en = Some (who en)) ∧
  (∀ i j p q,
     tasks s !! i = Some p → tasks s !! j = Some q →
     in_critical_section p = true → in_critical_section q = true → i = j).
Proof.
  intros Hinit Hrun.
  pose proof (initial_lock_inv s0 Hinit) as Hinv0.
  destruct (run_lock _ _ _ _ Hinv0 Hrun) as [Hinv Hlog].
  split_and!.
  - intros en Hen. by apply (Hlog en Hen).
  - intros Hcoop. apply (run_cooperative schedule s0 None s log); [done| |done|done].
    destruct Hinit as [-> _]. done.
  - intros en Hen. by apply (Hlog en Hen).
  - intros en Hen. by apply (Hlog en Hen).
  - intros i j p q Hp Hq Hcp Hcq.
    apply (Hinv i p Hp) in Hcp. apply (Hinv j q Hq) in Hcq. congruence.
Qed.

Lemma lock_discipline_witness :
  initial three_calls ∧
  ∃ s log,
    run three_calls three_calls_schedule = Some (s, log) ∧
    active_connections s = {[3]} ∧
    length log = 15 ∧
    ∀ en, en ∈ log → is_transport_io (what en) = true → lock_then en = None.
Proof.
  assert (Hinit : initial three_calls).
  { split; [done|]. intros [|[|[|i]]] p; simpl; intros [= <-]; done. }
  split; [exact Hinit|].
  destruct (run three_calls three_calls_schedule) as [[s log]|] eqn:Hrun;
    [|by vm_compute in Hrun].
  destruct (lock_discipline three_calls three_calls_schedule s log Hinit Hrun)
    as (_ & Hcoop & _).
  exists s, log. split; [done|].
  assert (Hs : (active_connections s, length log) = ({[3]}, 15)).
  { revert Hrun. vm_compute. by intros [= <- <-]. }
  injection Hs as -> ->.
  split_and!; [done|done|]. apply Hcoop. by vm_compute.
Defined.

End lock.

(** ** More on the registry *)

Section registry_more.

Import ConnectionManager.

Implicit Types (send : nat → option exn) (message : dict).
Implicit Types (active : gset nat) (l : list nat).

(** The loop visits a prefix of its list: all of it when it returns, which it
    does only if no send was cancelled. *)
Lemma send_all_visits send message l (disconnected : gset nat) :
  ∃ visited,
    (send_all send message l disconnected).2
      = map (λ h, SendJson h message (send h)) visited ∧
    visited `prefix_of` l ∧
    match (send_all send message l disconnected).1 with
    | Returns _ =>
        visited = l ∧ ∀ h e, h ∈ l → send h = Some e → is_Exception e = true
    | Raises _ => True
    end.
Proof.
  revert disconnected. induction l as [|h l IH]; intros D; simpl.
  - exists []. split_and!; [done..|]. by intros h e ?%elem_of_nil.
  - destruct (send h) as [e|] eqn:Hh.
    + destruct (is_Exception e) eqn:He.
      * destruct (IH ({[h]} ∪ D)) as (visited & Hevs & Hpre & Hall).
        destruct (send_all send message l ({[h]} ∪ D)) as [r evs]. simpl in *.
        exists (h :: visited). rewrite Hevs. simpl. rewrite Hh.
        split_and!; [done|by apply prefix_cons|]. destruct r; [|done].
        destruct Hall as [-> Hall]. split; [done|].
        intros h' e' [->|Hin]%elem_of_cons; [congruence|by apply Hall].
      * exists [h]. simpl. rewrite Hh. split_and!; [done| |done].
        by apply prefix_cons, prefix_nil.
    + destruct (IH D) as (visited & Hevs & Hpre & Hall).
      destruct (send_all send message l D) as [r evs]. simpl in *.
      exists (h :: visited). rewrite Hevs. simpl. rewrite Hh.
      split_and!; [done|by apply prefix_cons|]. destruct r; [|done].
      destruct Hall as [-> Hall]. split; [done|].
      intros h' e' [->|Hin]%elem_of_cons; [congruence|by apply Hall].
Qed.

Lemma sent_messages_sends send message l :
  sent_messages (map (λ h, SendJson h message (send h)) l)
    = replicate (length l) message.
Proof. induction l as [|h l IH]; simpl; by f_equal. Qed.

(** Whatever the sends do, a broadcast calls [send_json] on members of its
    snapshot only, each at most once, all with the one message; it adds
    nothing to the set and removes only connections on which its send
    raised an [Exception]. *)
Theorem broadcast_stays_in_snapshot send message active :
  let after := (broadcast send message active).1.2 in
  let trace := (broadcast send message active).2 in
  attempted trace `prefix_of` elements active ∧
  NoDup (attempted trace) ∧
  (∀ h, h ∈ attempted trace → h ∈ active) ∧
  sent_messages trace = replicate (length (attempted trace)) message ∧
  after ⊆ active ∧
  (∀ h, h ∈ active → h ∉ after →
     h ∈ attempted trace ∧ ∃ e, send h = Some e ∧ is_Exception e = true).
Proof.
  intros after trace.
  assert (Hmain :
    attempted trace `prefix_of` elements active ∧
    sent_messages trace = replicate (length (attempted trace)) message ∧
    (after = active ∨
     after = active ∖ failing send active ∧
     attempted trace = elements active ∧
     ∀ h e, h ∈ active → send h = Some e → is_Exception e = true)).
  { subst after trace. unfold broadcast.
    destruct (decide (active = ∅)) as [->|Hne].
    { simpl. split_and!; [apply prefix_nil|done|by left]. }
    destruct (send_all_visits send message (elements active) ∅)
      as (visited & Hevs & Hpre & Hall).
    pose proof (send_all_disconnected send message (elements active) ∅) as Hd.
    destruct (send_all send message (elements active) ∅) as [[d|e] evs]; simpl in *.
    - destruct Hall as [-> Hall]. subst evs. rewrite failing_elements in Hd.
      assert (Hd' : d = failing send active) by set_solver.
      assert (Hexc : ∀ h e, h ∈ active → send h = Some e → is_Exception e = true).
      { intros h e Hin. apply Hall. by apply elem_of_elements. }
      destruct (decide (d = ∅)) as [He|He]; simpl;
        rewrite ?attempted_app, ?sent_messages_app, attempted_sends,
          sent_messages_sends; simpl; rewrite ?app_nil_r.
      + split_and!; [done|done|]. left. done.
      + split_and!; [done|done|]. right. by rewrite Hd'.
    - subst evs. rewrite attempted_sends, sent_messages_sends.
      split_and!; [done|done|by left]. }
  destruct Hmain as ([rest Hrest] & Hmsgs & Hafter).
  pose proof (NoDup_elements active) as Hnd. rewrite Hrest in Hnd.
  apply NoDup_app in Hnd as (Hnd & _ & _).
  split_and!.
  - by exists rest.
  - done.
  - intros h Hh. apply elem_of_elements. rewrite Hrest. set_solver.
  - done.
  - destruct Hafter as [->|[-> _]]; set_solver.
  - intros h Hin Hout. destruct Hafter as [Heq|(Heq & Hatt & Hexc)].
    + by rewrite Heq in Hout.
    + rewrite Hatt. split; [by apply elem_of_elements|].
      assert (Hf : h ∈ failing send active) by (rewrite Heq in Hout; set_solver).
      apply elem_of_filter in Hf as [Hf _].
      destruct (send h) as [e|] eqn:Hh; [|done]. exists e. split; [done|].
      by apply (Hexc h).
Qed.

Lemma broadcast_stays_in_snapshot_witness :
  (2 ∈ ({[1; 2; 3]} : gset nat)) ∧
  (2 ∉ (broadcast send_fails_on_2 [] {[1; 2; 3]}).1.2) ∧
  (2 ∈ attempted (broadcast send_fails_on_2 [] {[1; 2; 3]}).2) ∧
  ∃ e, send_fails_on_2 2 = Some e ∧ is_Exception e = true.
Proof.
  assert (Hin : 2 ∈ ({[1; 2; 3]} : gset nat)) by set_solver.
  assert (Hout : 2 ∉ (broadcast send_fails_on_2 [] {[1; 2; 3]}).1.2).
  { assert (Heq : (broadcast send_fails_on_2 [] {[1; 2; 3]}).1.2 = {[1; 3]})
      by (by vm_compute).
    rewrite Heq. set_solver. }
  destruct (broadcast_stays_in_snapshot send_fails_on_2 [] {[1; 2; 3]})
    as (_ & _ & _ & _ & _ & Hgone).
  destruct (Hgone 2 Hin Hout) as [Hatt He].
  split_and!; [exact Hin|exact Hout|exact Hatt|exact He].
Defined.

(** The loop up to a send that is cancelled. *)
Lemma send_all_cancelled send message pre h post e (disconnected : gset nat) :
  (∀ h' e', h' ∈ pre → send h' = Some e' → is_Exception e' = true) →
  send h = Some e → is_Exception e = false →
  send_all send message (pre ++ h :: post) disconnected =
    (Raises e, map (λ h, SendJson h message (send h)) (pre ++ [h])).
Proof.
  intros Hpre Hh He. revert disconnected.
  induction pre as [|h' pre IH]; intros D; simpl.
  - by rewrite Hh, He.
  - assert (Hrest : ∀ h'' e', h'' ∈ pre → send h'' = Some e' → is_Exception e' = true).
    { intros h'' e' Hin. apply Hpre. by right. }
    destruct (send h') as [e'|] eqn:Hh'.
    + rewrite (Hpre h' e') by (done || left). by rewrite (IH Hrest).
    + by rewrite (IH Hrest).
Qed.

(** A broadcast one of whose sends is cancelled: the sends stop there, the
    exception leaves [broadcast], and the set is left as it was, with the
    connections whose sends had failed before still in it. *)
Theorem broadcast_cancelled send message active pre h post e :
  elements active = pre ++ h :: post →
  (∀ h' e', h' ∈ pre → send h' = Some e' → is_Exception e' = true) →
  send h = Some e → is_Exception e = false →
  broadcast send message active =
    (Raises e, active,
     [Acquire; Copy active; Release]
     ++ map (λ h, SendJson h message (send h)) (pre ++ [h])) ∧
  (∀ h', h' ∈ post → h' ∉ attempted (broadcast send message active).2) ∧
  (∀ h', h' ∈ pre → h' ∈ (broadcast send message active).1.2).
Proof.
  intros Helems Hpre Hh He.
  assert (Hrun : broadcast send message active =
    (Raises e, active,
     [Acquire; Copy active; Release]
     ++ map (λ h, SendJson h message (send h)) (pre ++ [h]))).
  { unfold broadcast. rewrite decide_False.
    - by rewrite Helems, (send_all_cancelled _ _ _ _ _ e).
    - intros ->. rewrite elements_empty in Helems. by destruct pre. }
  pose proof (NoDup_elements active) as Hnd. rewrite Helems in Hnd.
  rewrite Hrun. simpl. rewrite attempted_sends. split_and!; [done| |].
  - intros h' Hin Hatt. apply NoDup_app in Hnd as (_ & Hdis & Hnd).
    apply NoDup_cons in Hnd as [Hnh _].
    apply elem_of_app in Hatt as [Hatt|Hatt].
    + apply (Hdis h' Hatt). by right.
    + apply list_elem_of_singleton in Hatt as ->. done.
  - intros h' Hin. apply elem_of_elements. rewrite Helems. set_solver.
Qed.

Lemma broadcast_cancelled_witness :
  elements ({[1; 2; 3]} : gset nat) = [2] ++ 3 :: [1] ∧
  (∀ h' e', h' ∈ [2] → send_cancelled_on_3 h' = Some e' → is_Exception e' = true) ∧
  send_cancelled_on_3 3 = Some CancelledError ∧
  is_Exception CancelledError = false ∧
  (broadcast send_cancelled_on_3 [] {[1; 2; 3]}).1 = (Raises CancelledError, {[1; 2; 3]}).
Proof.
  assert (H1 : elements ({[1; 2; 3]} : gset nat) = [2] ++ 3 :: [1]) by reflexivity.
  assert (H2 : ∀ h' e', h' ∈ [2] →
            send_cancelled_on_3 h' = Some e' → is_Exception e' = true).
  { intros h' e' ->%list_elem_of_singleton. vm_compute. by intros [= <-]. }
  split_and!; [exact H1|exact H2|reflexivity|reflexivity|].
  destruct (broadcast_cancelled send_cancelled_on_3 [] {[1; 2; 3]} [2] 3 [1]
              CancelledError H1 H2 eq_refl eq_refl) as (Hrun & _).
  by rewrite Hrun.
Defined.

(** A broadcast that has returned has left in the set no connection that
    fails: a second broadcast that meets the same transport delivers to all
    of them and removes nothing. *)
Theorem broadcast_again send message message' active :
  (∀ h e, h ∈ active → send h = Some e → is_Exception e = true) →
  let after := (broadcast send message active).1.2 in
  failing send after = ∅ ∧
  broadcast send message' after =
    (Returns (), after,
     if decide (after = ∅) then []
     else [Acquire; Copy after; Release]
          ++ map (λ h, SendJson h message' None) (elements after)) ∧
  delivered (broadcast send message' after).2 = elements after.
Proof.
  intros Hexc after. subst after. rewrite broadcast_returns by done. simpl.
  set (after := active ∖ failing send active).
  assert (Hnone : ∀ h, h ∈ after → send h = None).
  { intros h. subst after. unfold failing.
    rewrite elem_of_difference, elem_of_filter.
    intros [Hin Hnf]. destruct (send h); [|done]. exfalso. by apply Hnf. }
  assert (Hfail : failing send after = ∅).
  { apply set_eq. intros h. unfold failing at 1. rewrite elem_of_filter.
    split; [|by intros ?%not_elem_of_empty].
    intros [Hh Hin]. by rewrite (Hnone h Hin) in Hh. }
  assert (Hmap : map (λ h, SendJson h message' (send h)) (elements after)
                 = map (λ h, SendJson h message' None) (elements after)).
  { apply map_ext_in. intros h Hin%list_elem_of_In%elem_of_elements.
    by rewrite (Hnone h Hin). }
  assert (Hrun : broadcast send message' after =
    (Returns (), after,
     if decide (after = ∅) then []
     else [Acquire; Copy after; Release]
          ++ map (λ h, SendJson h message' None) (elements after))).
  { rewrite broadcast_returns.
    - rewrite Hfail, (decide_True (P := (∅ : gset nat) = ∅)) by done.
      rewrite app_nil_r, Hmap.
      replace (after ∖ ∅) with after by set_solver. done.
    - intros h e Hin. by rewrite (Hnone h Hin). }
  split_and!; [done|done|]. rewrite Hrun. simpl.
  destruct (decide (after = ∅)) as [->|Hne]; simpl.
  - by rewrite elements_empty.
  - clear. induction (elements after) as [|h l IH]; simpl; by f_equal.
Qed.

Lemma broadcast_again_witness :
  (∀ h e, h ∈ ({[1; 2; 3]} : gset nat) →
     send_fails_on_2 h = Some e → is_Exception e = true) ∧
  delivered (broadcast send_fails_on_2 []
               (broadcast send_fails_on_2 [] {[1; 2; 3]}).1.2).2 = [3; 1].
Proof.
  assert (H : ∀ h e, h ∈ ({[1; 2; 3]} : gset nat) →
            send_fails_on_2 h = Some e → is_Exception e = true).
  { intros h e _. unfold send_fails_on_2. case_decide; [|done]. by intros [= <-]. }
  split; [exact H|].
  destruct (broadcast_again send_fails_on_2 [] [] {[1; 2; 3]} H) as (_ & _ & Hd).
  rewrite Hd. reflexivity.
Defined.

(** [connect] and [disconnect] of one connection: a connect puts it in, a
    disconnect takes it out, each leaves the other connections alone and is
    idempotent, and a disconnect undoes the connect of a connection that was
    not there. *)
Theorem connect_then_disconnect active ws :
  let connected := (connect None ws active).1.2 in
  let after := (disconnect ws connected).1.2 in
  (ws ∈ connected) ∧ (ws ∉ after) ∧
  after = active ∖ {[ws]} ∧
  (ws ∉ active → after = active ∧
     connection_count connected = S (connection_count active)) ∧
  (connect None ws connected).1.2 = connected ∧
  (disconnect ws after).1.2 = after ∧
  (∀ h, h ≠ ws → (h ∈ connected ↔ h ∈ active) ∧ (h ∈ after ↔ h ∈ active)).
Proof.
  simpl. split_and!; try set_solver.
  intros Hnew. split; [set_solver|].
  unfold connection_count. rewrite size_union, size_singleton by set_solver. lia.
Qed.

Lemma connect_then_disconnect_witness :
  (3 ∉ ({[1; 2]} : gset nat)) ∧
  (disconnect 3 (connect None 3 {[1; 2]}).1.2).1.2 = {[1; 2]}.
Proof.
  assert (H : 3 ∉ ({[1; 2]} : gset nat)) by set_solver.
  split; [exact H|].
  destruct (connect_then_disconnect {[1; 2]} 3) as (_ & _ & _ & Hundo & _).
  exact (proj1 (Hundo H)).
Defined.

End registry_more.

(** ** More on the interleaved calls *)

Section tasks_more.

Import Tasks.

Implicit Types (s : state) (p : pc) (me : nat) (io : option exn).

Lemma fresh_initial s : fresh s → initial s.
Proof.
  intros [Hfree Hentry]. split; [done|]. intros i p Hp.
  specialize (Hentry i p Hp). by destruct p.
Qed.

(** The holder of the lock is one of the calls, inside a critical section. *)
Lemma run_holder schedule s s' log :
  lock_inv s → (∀ i, lock s = Some i → is_Some (tasks s !! i)) →
  run s schedule = Some (s', log) →
  lock_inv s' ∧
  ∀ i, lock s' = Some i → ∃ p, tasks s' !! i = Some p ∧ in_critical_section p = true.
Proof.
  revert s log. induction schedule as [|[me io] schedule IH]; intros s log Hinv Hval; simpl.
  - intros [= <- <-]. split; [done|]. intros i Hi.
    destruct (Hval i Hi) as [p Hp]. exists p. split; [done|]. by apply (Hinv i p Hp).
  - destruct (step s me io) as [[s1 log1]|] eqn:Hstep; [|done].
    destruct (step_lock _ _ _ _ _ Hinv Hstep) as (Hinv1 & Hothers & _).
    destruct (run s1 schedule) as [[s2 log2]|] eqn:Hrun; [|done].
    intros [= <- <-]. apply (IH s1 log2); [done| |done].
    intros i Hi. unfold step in Hstep.
    destruct (tasks s !! me) as [p|] eqn:Hme; [|done].
    destruct (exec me io p (active_connections s) (lock s))
      as [[[[p' a'] lk'] evs]|]; [|done].
    injection Hstep as <- _. simpl in *.
    destruct (decide (i = me)) as [->|Hne].
    + rewrite list_lookup_insert_eq by (by eapply lookup_lt_Some). eauto.
    + rewrite list_lookup_insert_ne by done. apply Hval. by apply Hothers.
Qed.

(** A statement inside a critical section can always run, and so can any
    statement of an unfinished call while the lock is free. *)
Lemma exec_enabled me io p (active : gset nat) lk :
  (in_critical_section p = true ∨ lk = None) → (∀ r, p ≠ Done r) →
  is_Some (exec me io p active lk).
Proof.
  intros Hor Hrun. destruct p; simpl; try done;
    try (destruct Hor as [?| ->]; done).
  - destruct todo; done.
  - by destruct (Hrun r).
Qed.

(** No deadlock: in every state an interleaving reaches, the holder of the
    lock can run its next statement; when the lock is free every unfinished
    call can; and once all calls have finished the lock is free. *)
Theorem no_deadlock s0 schedule s log :
  initial s0 →
  run s0 schedule = Some (s, log) →
  (∀ i io, lock s = Some i → is_Some (step s i io)) ∧
  (∀ i p io, lock s = None → tasks s !! i = Some p → (∀ r, p ≠ Done r) →
     is_Some (step s i io)) ∧
  ((∀ i p, tasks s !! i = Some p → ∃ r, p = Done r) → lock s = None).
Proof.
  intros Hinit Hrun.
  destruct (run_holder schedule s0 s log) as [Hinv Hholder];
    [by apply initial_lock_inv| |done|].
  { destruct Hinit as [-> _]. done. }
  assert (Hstep : ∀ i p io, tasks s !! i = Some p →
            (in_critical_section p = true ∨ lock s = None) → (∀ r, p ≠ Done r) →
            is_Some (step s i io)).
  { intros i p io Hp Hor Hnd. unfold step. rewrite Hp.
    destruct (exec_enabled i io p (active_connections s) (lock s) Hor Hnd)
      as [[[[p' a'] lk'] evs] ->]. done. }
  split_and!.
  - intros i io Hi. destruct (Hholder i Hi) as (p & Hp & Hc).
    apply (Hstep i p io Hp); [by left|]. intros r ->. done.
  - intros i p io Hfree Hp Hnd. apply (Hstep i p io Hp); [by right|done].
  - intros Hall. destruct (lock s) as [i|] eqn:Hi; [|done].
    destruct (Hholder i eq_refl) as (p & Hp & Hc).
    destruct (Hall i p Hp) as [r ->]. done.
Qed.

Lemma no_deadlock_witness :
  initial three_calls ∧
  ∃ s log,
    run three_calls (take 7 three_calls_schedule) = Some (s, log) ∧
    lock s = Some 0 ∧ is_Some (step s 0 None).
Proof.
  assert (Hinit : initial three_calls).
  { split; [done|]. intros [|[|[|i]]] p; simpl; intros [= <-]; done. }
  split; [exact Hinit|].
  destruct (run three_calls (take 7 three_calls_schedule)) as [[s log]|] eqn:Hrun;
    [|by vm_compute in Hrun].
  destruct (no_deadlock three_calls _ s log Hinit Hrun) as (Hholder & _).
  assert (Hlock : lock s = Some 0).
  { revert Hrun. vm_compute. by intros [= <- _]. }
  exists s, log. split_and!; [done|done|]. by apply Hholder.
Defined.

(** Where the running call changes under a cooperative schedule, the lock
    is free or held by the call that runs next. *)
Lemma cooperative_switch s (last : option nat) me :
  lock_inv s → (∀ j, lock s = Some j → last = Some j) →
  match last with
  | None => true
  | Some prev =>
      bool_decide (prev = me) ||
      match tasks s !! prev with
      | Some p => may_yield (lock s) p
      | None => false
      end
  end = true →
  ∀ j, lock s = Some j → j = me.
Proof.
  intros Hinv Hlast Hswitch j Hj. pose proof (Hlast j Hj) as ->.
  apply orb_true_iff in Hswitch as [Heq|Hyield].
  - by apply bool_decide_eq_true in Heq.
  - destruct (tasks s !! j) as [q|] eqn:Hq; [|done].
    apply (Hinv j q Hq) in Hj. by destruct q.
Qed.

Lemma cooperative_holder schedule s (last : option nat) s' log me io :
  lock_inv s → (∀ j, lock s = Some j → last = Some j) →
  run s schedule = Some (s', log) →
  cooperative s last (schedule ++ [(me, io)]) = true →
  lock_inv s' ∧ ∀ j, lock s' = Some j → j = me.
Proof.
  revert s last log.
  induction schedule as [|[m1 io1] schedule IH]; intros s last log Hinv Hlast; simpl.
  - intros [= <- <-] [Hswitch _]%andb_true_iff. split; [done|].
    by apply (cooperative_switch s last me).
  - destruct (step s m1 io1) as [[s1 log1]|] eqn:Hstep; [|done].
    destruct (step_lock _ _ _ _ _ Hinv Hstep) as (Hinv1 & Hothers & _).
    destruct (run s1 schedule) as [[s2 log2]|] eqn:Hrun; [|done].
    intros [= <- <-] [Hswitch Hcoop]%andb_true_iff.
    apply (IH s1 (Some m1) log2); [done| |done|done].
    intros j Hj. destruct (decide (j = m1)) as [->|Hne]; [done|].
    apply (Hothers j Hne) in Hj.
    by apply (cooperative_switch s last m1 Hinv Hlast Hswitch) in Hj.
Qed.

(** Under asyncio's scheduling the lock is never contended: when a call is
    given the turn, the lock is free unless the call itself holds it, so its
    next statement runs and [async with self._lock] never has to wait. *)
Theorem lock_never_contended s0 schedule s log me io p :
  initial s0 →
  run s0 schedule = Some (s, log) →
  cooperative s0 None (schedule ++ [(me, io)]) = true →
  tasks s !! me = Some p → (∀ r, p ≠ Done r) →
  is_Some (step s me io) ∧
  (∀ j, lock s = Some j → j = me) ∧
  (in_critical_section p = false → lock s = None).
Proof.
  intros Hinit Hrun Hcoop Hp Hnd.
  destruct (cooperative_holder schedule s0 None s log me io) as [Hinv Hme];
    [by apply initial_lock_inv| |done|done|].
  { destruct Hinit as [-> _]. done. }
  assert (Hfree : in_critical_section p = false → lock s = None).
  { intros Hout. destruct (lock s) as [j|] eqn:Hj; [|done].
    pose proof (Hme j eq_refl) as ->.
    apply (Hinv me p Hp) in Hj. congruence. }
  split_and!; [|done|done].
  unfold step. rewrite Hp.
  destruct (exec_enabled me io p (active_connections s) (lock s))
    as [[[[p' a'] lk'] evs] ->]; [|done|done].
  destruct (in_critical_section p) eqn:Hc; [by left|right; by apply Hfree].
Qed.

Lemma lock_never_contended_witness :
  initial three_calls ∧
  ∃ s log,
    run three_calls (take 9 three_calls_schedule) = Some (s, log) ∧
    cooperative three_calls None (take 9 three_calls_schedule ++ [(2, None)]) = true ∧
    tasks s !! 2 = Some (DisconnectAcquire 1) ∧
    lock s = None ∧ is_Some (step s 2 None).
Proof.
  assert (Hinit : initial three_calls).
  { split; [done|]. intros [|[|[|i]]] p; simpl; intros [= <-]; done. }
  split; [exact Hinit|].
  destruct (run three_calls (take 9 three_calls_schedule)) as [[s log]|] eqn:Hrun;
    [|by vm_compute in Hrun].
  assert (Hcoop : cooperative three_calls None
                    (take 9 three_calls_schedule ++ [(2, None)]) = true)
    by (by vm_compute).
  assert (Hp : tasks s !! 2 = Some (DisconnectAcquire 1)).
  { revert Hrun. vm_compute. by intros [= <- _]. }
  destruct (lock_never_contended three_calls _ s log 2 None _ Hinit Hrun Hcoop Hp)
    as (Hstep & _ & Hfree); [done|].
  exists s, log. split_and!; [done|done|done|by apply Hfree|done].
Defined.

(** The snapshot of a broadcast under interleaving. *)
Lemma copied_mono i c (log log' : list entry) :
  copied i c log → copied i c (log ++ log').
Proof. intros (en & Hen & ?). exists en. split; [|done]. apply elem_of_app. by left. Qed.

Lemma send_failed_mono i h (log log' : list entry) :
  send_failed i h log → send_failed i h (log ++ log').
Proof.
  intros (en & m & e & Hen & ?). exists en, m, e. split; [|done].
  apply elem_of_app. by left.
Qed.

Lemma pc_inv_mono i p (log log' : list entry) :
  pc_inv i p log → pc_inv i p (log ++ log').
Proof.
  destruct p; simpl; try done.
  - apply copied_mono.
  - intros (c & Hc & Htodo & Hd). exists c. split_and!; [by apply copied_mono|done|].
    intros h Hh. destruct (Hd h Hh). split; [done|by apply send_failed_mono].
  - intros (c & Hc & Hd). exists c. split; [by apply copied_mono|].
    intros h Hh. destruct (Hd h Hh). split; [done|by apply send_failed_mono].
  - intros (c & Hc & Hd). exists c. split; [by apply copied_mono|].
    intros h Hh. destruct (Hd h Hh). split; [done|by apply send_failed_mono].
Qed.

Lemma step_snapshot s me io s' log0 log1 :
  snapshot_inv s log0 → step s me io = Some (s', log1) →
  snapshot_inv s' (log0 ++ log1) ∧
  (log1 = [] ∨ ∃ en, log1 = [en] ∧ who en = me ∧
     ∀ d, what en = Subtract d →
       ∃ c, copied me c log0 ∧ ∀ h, h ∈ d → h ∈ c ∧ send_failed me h log0).
Proof.
  intros Hinv. unfold step.
  destruct (tasks s !! me) as [p|] eqn:Hme; [|done].
  destruct (exec me io p (active_connections s) (lock s))
    as [[[[p' active'] lk'] evs]|] eqn:Hexec; [|done].
  intros [= <- <-]. pose proof (Hinv me p Hme) as Hp.
  assert (Hmine : pc_inv me p'
            (log0 ++ map (λ ev, {| who := me; lock_then := lock s;
                                   active_then := active_connections s;
                                   what := ev |}) evs) ∧
          (evs = [] ∨ ∃ ev, evs = [ev] ∧
             ∀ d, ev = Subtract d →
               ∃ c, copied me c log0 ∧ ∀ h, h ∈ d → h ∈ c ∧ send_failed me h log0)).
  { destruct p; simpl in Hexec;
      repeat match type of Hexec with
             | context [match ?x with _ => _ end] => destruct x eqn:?
             end;
      simplify_eq; simpl in *;
      try (split; [done|first [by left | right; eexists; split; [done|]; by intros d [=]]]).
    - (* the copy *)
      split; [|right; eexists; split; [done|]; by intros d [=]].
      eexists. split; [apply elem_of_app; right; by left|done].
    - (* leaving the first lock block *)
      split; [|right; eexists; split; [done|]; by intros d [=]].
      exists connections. split_and!; [by apply copied_mono| |set_solver].
      intros h. by rewrite elem_of_elements.
    - (* the for loop is over and there is something to remove *)
      split; [|by left]. destruct Hp as (c & Hc & _ & Hd).
      exists c. rewrite app_nil_r. done.
    - (* a send that raised an Exception *)
      split; [|right; eexists; split; [done|]; by intros d [=]].
      destruct Hp as (c & Hc & Htodo & Hd).
      exists c. split_and!; [by apply copied_mono|set_solver|].
      intros h [->%elem_of_singleton|Hh]%elem_of_union.
      + split; [set_solver|]. eexists _, _, _.
        split; [apply elem_of_app; right; by left|done].
      + destruct (Hd h Hh). split; [done|by apply send_failed_mono].
    - (* a send that returned *)
      split; [|right; eexists; split; [done|]; by intros d [=]].
      destruct Hp as (c & Hc & Htodo & Hd).
      exists c. split_and!; [by apply copied_mono|set_solver|].
      intros h Hh. destruct (Hd h Hh). split; [done|by apply send_failed_mono].
    - (* taking the lock for the removal *)
      split; [|right; eexists; split; [done|]; by intros d [=]].
      destruct Hp as (c & Hc & Hd). exists c. split; [by apply copied_mono|].
      intros h Hh. destruct (Hd h Hh). split; [done|by apply send_failed_mono].
    - (* the removal *)
      split; [done|]. right. eexists. split; [done|]. by intros d [= <-]. }
  destruct Hmine as [Hmine Hevs]. split.
  - intros i q. simpl. destruct (decide (i = me)) as [->|Hne].
    + rewrite list_lookup_insert_eq by (by eapply lookup_lt_Some). by intros [= <-].
    + rewrite list_lookup_insert_ne by done. intros Hq.
      by apply pc_inv_mono, (Hinv i q).
  - destruct Hevs as [->|(ev & -> & Hev)]; [by left|]. right.
    eexists. split; [done|]. split; [done|]. done.
Qed.

Lemma run_snapshot schedule s log0 s' log :
  snapshot_inv s log0 → run s schedule = Some (s', log) →
  ∀ before en later d,
    log = before ++ en :: later → what en = Subtract d →
    ∃ c, copied (who en) c (log0 ++ before) ∧
         ∀ h, h ∈ d → h ∈ c ∧ send_failed (who en) h (log0 ++ before).
Proof.
  revert s log0 log.
  induction schedule as [|[me io] schedule IH]; intros s log0 log Hinv; simpl.
  - intros [= <- <-] before en later d Hlog. by destruct before.
  - destruct (step s me io) as [[s1 log1]|] eqn:Hstep; [|done].
    destruct (step_snapshot _ _ _ _ log0 _ Hinv Hstep) as [Hinv1 Hlog1].
    destruct (run s1 schedule) as [[s2 log2]|] eqn:Hrun; [|done].
    intros [= <- <-] before en later d Hlog Hen.
    destruct Hlog1 as [->|(en1 & -> & Hwho & Hsub)].
    + rewrite app_nil_r in Hinv1. by apply (IH s1 log0 log2 Hinv1 Hrun _ _ later).
    + destruct before as [|en0 before]; simpl in Hlog.
      * injection Hlog as -> _. rewrite app_nil_r, Hwho. by apply Hsub.
      * injection Hlog as -> Hlog.
        replace (log0 ++ en0 :: before) with ((log0 ++ [en0]) ++ before)
          by (by rewrite <- (assoc_L (++))).
        by apply (IH s1 (log0 ++ [en0]) log2 Hinv1 Hrun _ _ later).
Qed.

(** Under any interleaving, what a broadcast removes are members of the
    snapshot it took earlier on which its own send raised an [Exception]
    earlier: a connection that joined during the send pass is not taken out
    by that broadcast. *)
Theorem evicted_from_snapshot s0 schedule s log before en later d :
  fresh s0 →
  run s0 schedule = Some (s, log) →
  log = before ++ en :: later →
  what en = Subtract d →
  ∃ c, copied (who en) c before ∧
       d ⊆ c ∧
       ∀ h, h ∈ d → send_failed (who en) h before.
Proof.
  intros Hfresh Hrun Hlog Hen.
  assert (Hinv : snapshot_inv s0 []).
  { intros i p Hp. destruct Hfresh as [_ Hentry].
    specialize (Hentry i p Hp). by destruct p. }
  destruct (run_snapshot schedule s0 [] s log Hinv Hrun before en later d Hlog Hen)
    as (c & Hc & Hd).
  exists c. split_and!; [done| |].
  - intros h Hh. by apply Hd.
  - intros h Hh. by apply Hd.
Qed.

Lemma evicted_from_snapshot_witness :
  fresh three_calls ∧
  ∃ s log en,
    run three_calls three_calls_schedule = Some (s, log) ∧
    log = take 13 log ++ en :: drop 14 log ∧
    what en = Subtract {[2]} ∧
    ∃ c, copied 1 c (take 13 log) ∧ ({[2]} : gset nat) ⊆ c.
Proof.
  assert (Hfresh : fresh three_calls).
  { split; [done|]. intros [|[|[|i]]] p; simpl; intros [= <-]; done. }
  split; [exact Hfresh|].
  destruct (run three_calls three_calls_schedule) as [[s log]|] eqn:Hrun;
    [|by vm_compute in Hrun].
  assert (Hen : ∃ en, log !! 13 = Some en ∧ what en = Subtract {[2]} ∧ who en = 1).
  { revert Hrun. vm_compute. intros [= <- <-]. by eexists. }
  destruct Hen as (en & Hlook & Hwhat & Hwho).
  assert (Hlog : log = take 13 log ++ en :: drop 14 log)
    by (by rewrite take_drop_middle).
  destruct (evicted_from_snapshot three_calls three_calls_schedule s log
              (take 13 log) en (drop 14 log) {[2]} Hfresh Hrun Hlog Hwhat)
    as (c & Hc & Hsub & _).
  exists s, log, en. split_and!; [done|done|done|].
  exists c. rewrite Hwho in Hc. done.
Defined.

End tasks_more.

(** ** More on the session handler *)

Section session_more.

Import ConnectionManager Session.

Implicit Types (t : transport) (ws fuel sent received : nat).

Lemma ends_nil ws x : ends_with_failed_send ws x [].
Proof. intros pre ev post Hevs. by destruct pre. Qed.

Lemma ends_cons ws x a evs :
  send_ended_session a = false →
  ends_with_failed_send ws x evs → ends_with_failed_send ws x (a :: evs).
Proof.
  intros Ha Hevs pre ev post Heq Hev. destruct pre as [|a' pre]; simpl in Heq.
  - injection Heq as -> _. congruence.
  - injection Heq as _ Heq. by apply (Hevs pre).
Qed.

Lemma ends_last ws m e :
  ends_with_failed_send ws (Some e) [SendJson ws m (Some e)].
Proof.
  intros pre ev post Heq _. destruct pre as [|a pre]; simpl in Heq.
  - injection Heq as <- <-. eauto.
  - injection Heq as _ Heq. by destruct pre.
Qed.

Lemma receive_loop_ends t ws fuel sent received :
  ends_with_failed_send ws (receive_loop t ws fuel sent received).1
    (receive_loop t ws fuel sent received).2.
Proof.
  revert sent received. induction fuel as [|fuel IH]; intros sent received; simpl.
  - apply ends_nil.
  - destruct (receive_text_result t received) as [data|e].
    + destruct (send_json_result t sent) as [e|].
      * destruct e; simpl;
          try (apply ends_cons; [done|]; apply ends_last).
        destruct (send_json_result t (S sent)); simpl.
        -- do 2 (apply ends_cons; [done|]). apply ends_last.
        -- specialize (IH (S (S sent)) (S received)).
           destruct (receive_loop t ws fuel (S (S sent)) (S received)).
           by do 3 (apply ends_cons; [done|]).
      * specialize (IH (S sent) (S received)).
        destruct (receive_loop t ws fuel (S sent) (S received)).
        by do 2 (apply ends_cons; [done|]).
    + destruct e; simpl; try (apply ends_cons; [done|]; apply ends_nil).
      destruct (send_json_result t sent); simpl.
      * apply ends_cons; [done|]. apply ends_last.
      * specialize (IH (S sent) (S received)).
        destruct (receive_loop t ws fuel (S sent) (S received)).
        by do 2 (apply ends_cons; [done|]).
Qed.

Lemma try_body_ends t ws fuel :
  ends_with_failed_send ws (try_body t ws fuel).1 (try_body t ws fuel).2.
Proof.
  unfold try_body. destruct (send_json_result t 0); simpl.
  - apply ends_last.
  - pose proof (receive_loop_ends t ws fuel 1 0) as H.
    destruct (receive_loop t ws fuel 1 0). by apply ends_cons.
Qed.

Lemma split_middle (l1 l2 pre post : list event) ev :
  l1 ++ l2 = pre ++ ev :: post →
  (∃ post1, l1 = pre ++ ev :: post1 ∧ post = post1 ++ l2) ∨
  (∃ pre2, pre = l1 ++ pre2 ∧ l2 = pre2 ++ ev :: post).
Proof.
  revert pre. induction l1 as [|a l1 IH]; intros pre Heq; simpl in *.
  - right. by exists pre.
  - destruct pre as [|a' pre]; simpl in Heq.
    + injection Heq as -> <-. left. by exists l1.
    + injection Heq as -> Heq. destruct (IH pre Heq) as [(post1 & -> & ->)|(pre2 & -> & ->)].
      * left. by exists post1.
      * right. by exists pre2.
Qed.

(** A send that fails is the last thing the handler does with the
    connection: nothing but the deregistration follows it, and the handler
    returns normally unless the exception is a cancellation.  (An echo send
    that raises [TimeoutError] is not such a failure: the loop takes it for
    an idle timeout.) *)
Theorem failed_send_ends_session t ws fuel active status after trace pre ev post :
  accept_result t = None →
  websocket_endpoint t ws fuel active = (status, after, trace) →
  trace = pre ++ ev :: post →
  send_ended_session ev = true →
  post = [Acquire; Discard ws; Release] ∧
  (ws ∉ after) ∧
  ∃ m e, ev = SendJson ws m (Some e) ∧
         status = Some (if is_Exception e then Returns () else Raises e).
Proof.
  intros Hacc Hrun Htrace Hev.
  unfold websocket_endpoint, connect, disconnect in Hrun. rewrite Hacc in Hrun.
  pose proof (try_body_ends t ws fuel) as Hends.
  destruct (try_body t ws fuel) as [x body]. simpl in Hends.
  assert (Hbody : ∀ rest post',
            [Accept ws None; Acquire; Add ws; Release] ++ body ++ rest
              = pre ++ ev :: post' →
            Forall (λ a, send_ended_session a = false) rest →
            post' = rest ∧ ∃ m e, ev = SendJson ws m (Some e) ∧ x = Some e).
  { intros rest post' Heq Hrest.
    apply split_middle in Heq as [(post1 & Heq & _)|(pre2 & _ & Heq)].
    { assert (Hin : ev ∈ [Accept ws None; Acquire; Add ws; Release]).
      { rewrite Heq. set_solver. }
      set_unfold. destruct Hin as [->|[->|[->|[->|[]]]]]; done. }
    apply split_middle in Heq as [(post1 & Heq & ->)|(pre3 & _ & Heq)].
    - destruct (Hends pre2 ev post1 Heq Hev) as [-> Hx]. done.
    - assert (Hin : ev ∈ rest) by (rewrite Heq; set_solver).
      rewrite Forall_forall in Hrest. specialize (Hrest ev Hin). congruence. }
  destruct x as [e|].
  - injection Hrun as <- <- <-.
    destruct (Hbody [Acquire; Discard ws; Release] post) as (-> & m & e' & -> & [= <-]).
    { by rewrite <- Htrace. }
    { by repeat constructor. }
    split_and!; [done|set_solver|by eauto].
  - injection Hrun as <- <- <-.
    destruct (Hbody [] post) as (_ & m & e' & _ & [=]).
    { by rewrite app_nil_r, <- Htrace. }
    { constructor. }
Qed.

Lemma failed_send_ends_session_witness :
  Session.accept_result hello_then_broken = None ∧
  ∃ status after pre ev post,
    websocket_endpoint hello_then_broken 7 5 ∅ = (status, after, pre ++ ev :: post) ∧
    send_ended_session ev = true ∧
    status = Some (Returns ()) ∧
    post = [Acquire; Discard 7; Release].
Proof.
  split; [reflexivity|].
  destruct (websocket_endpoint hello_then_broken 7 5 ∅) as [[status after] trace] eqn:Hrun.
  assert (Htrace : ∃ ev, trace = take 6 trace ++ ev :: drop 7 trace ∧
                     send_ended_session ev = true ∧
                     ev = SendJson 7 (echo "hello" "1") (Some RuntimeError)).
  { revert Hrun. vm_compute. intros [= _ _ <-]. by eexists. }
  destruct Htrace as (ev & Htrace & Hev & Hsend).
  destruct (failed_send_ends_session hello_then_broken 7 5 ∅ status after trace
              (take 6 trace) ev (drop 7 trace) eq_refl Hrun Htrace Hev)
    as (Hpost & _ & m & e & Hm & Hstatus).
  exists status, after, (take 6 trace), ev, (drop 7 trace).
  rewrite <- Htrace. split_and!; [done|done| |done].
  rewrite Hsend in Hm. injection Hm as _ <-. done.
Defined.

Lemma sends_of_type_send type ws m r (evs : list event) :
  sends_of_type type (SendJson ws m r :: evs) =
    (if decide (get "type" m = Some (JStr type)) then [m] else [])
    ++ sends_of_type type evs.
Proof.
  unfold sends_of_type. cbn [sent_messages].
  destruct (decide (get "type" m = Some (JStr type))).
  - by rewrite filter_cons_True.
  - by rewrite filter_cons_False.
Qed.

Lemma sends_of_type_receive type ws r (evs : list event) :
  sends_of_type type (ReceiveText ws r :: evs) = sends_of_type type evs.
Proof. done. Qed.

#[local] Arguments sends_of_type : simpl never.

Ltac count_sends :=
  repeat first
    [ rewrite sends_of_type_send
    | rewrite sends_of_type_receive
    | rewrite decide_True by done
    | rewrite decide_False by done
    | progress cbn [app map length received_texts idle_timeouts echo_timeouts] ].

(** In the loop, whatever the transport does: the echoes are those of the
    texts received, in order; the pings are as many as the idle timeouts
    and the echo sends that raised [TimeoutError]; no welcome is sent. *)
Lemma receive_loop_counts t ws fuel sent received :
  let evs := (receive_loop t ws fuel sent received).2 in
  map (get "message") (sends_of_type "echo" evs)
    = map (λ data, Some (JStr ("Server received: " +:+ data))) (received_texts evs) ∧
  length (sends_of_type "ping" evs) = idle_timeouts evs + echo_timeouts evs ∧
  sends_of_type "welcome" evs = [].
Proof.
  cbv zeta. revert sent received.
  induction fuel as [|fuel IH]; intros sent received; cbn [receive_loop].
  - done.
  - destruct (receive_text_result t received) as [data|e].
    + destruct (send_json_result t sent) as [e|].
      * destruct e; cbn [fst snd app]; try (by count_sends).
        destruct (send_json_result t (S sent)) as [e'|]; cbn [fst snd app].
        -- destruct e'; by count_sends.
        -- destruct (IH (S (S sent)) (S received)) as (He & Hp & Hw).
           destruct (receive_loop t ws fuel (S (S sent)) (S received)).
           cbn [fst snd app] in *.
           count_sends. rewrite He, Hp, Hw. split_and!; [done|lia|done].
      * destruct (IH (S sent) (S received)) as (He & Hp & Hw).
        destruct (receive_loop t ws fuel (S sent) (S received)).
        cbn [fst snd app] in *.
        count_sends. by rewrite He, Hp, Hw.
    + destruct e; cbn [fst snd app]; try (by count_sends).
      destruct (send_json_result t sent) as [e|]; cbn [fst snd app].
      * destruct e; by count_sends.
      * destruct (IH (S sent) (S received)) as (He & Hp & Hw).
        destruct (receive_loop t ws fuel (S sent) (S received)).
        cbn [fst snd app] in *.
        count_sends. by rewrite He, Hp, Hw.
Qed.

Lemma sends_of_type_app type (tr1 tr2 : list event) :
  sends_of_type type (tr1 ++ tr2) = sends_of_type type tr1 ++ sends_of_type type tr2.
Proof. unfold sends_of_type. by rewrite sent_messages_app, filter_app. Qed.

Lemma received_texts_app (tr1 tr2 : list event) :
  received_texts (tr1 ++ tr2) = received_texts tr1 ++ received_texts tr2.
Proof.
  induction tr1 as [|ev tr1 IH]; [done|].
  destruct ev; simpl; repeat case_match; simpl; by rewrite ?IH.
Qed.

Lemma idle_timeouts_app (tr1 tr2 : list event) :
  idle_timeouts (tr1 ++ tr2) = idle_timeouts tr1 + idle_timeouts tr2.
Proof.
  induction tr1 as [|ev tr1 IH]; [done|].
  destruct ev; simpl; repeat case_match; simpl; by rewrite ?IH.
Qed.

Lemma echo_timeouts_app (tr1 tr2 : list event) :
  echo_timeouts (tr1 ++ tr2) = echo_timeouts tr1 + echo_timeouts tr2.
Proof.
  induction tr1 as [|ev tr1 IH]; [done|].
  destruct ev; simpl; repeat case_match; simpl; rewrite ?IH; lia.
Qed.

(** In every session, whatever the transport does: the handler sends one
    welcome; its echoes are those of the texts it received, one for each in
    the order received; and its pings are as many as the receives that met
    the idle timeout plus the echo sends that raised [TimeoutError]. *)
Theorem replies_match_receives t ws fuel active :
  accept_result t = None →
  let trace := (websocket_endpoint t ws fuel active).2 in
  length (sends_of_type "welcome" trace) = 1 ∧
  map (get "message") (sends_of_type "echo" trace)
    = map (λ data, Some (JStr ("Server received: " +:+ data))) (received_texts trace) ∧
  length (sends_of_type "ping" trace) = idle_timeouts trace + echo_timeouts trace.
Proof.
  intros Hacc. cbv zeta.
  assert (Hbody :
    length (sends_of_type "welcome" (try_body t ws fuel).2) = 1 ∧
    map (get "message") (sends_of_type "echo" (try_body t ws fuel).2)
      = map (λ data, Some (JStr ("Server received: " +:+ data)))
          (received_texts (try_body t ws fuel).2) ∧
    length (sends_of_type "ping" (try_body t ws fuel).2)
      = idle_timeouts (try_body t ws fuel).2 + echo_timeouts (try_body t ws fuel).2).
  { unfold try_body. destruct (send_json_result t 0) as [e|]; cbn [snd].
    - destruct e; by count_sends.
    - destruct (receive_loop_counts t ws fuel 1 0) as (He & Hp & Hw).
      destruct (receive_loop t ws fuel 1 0). cbn [fst snd] in *.
      count_sends. by rewrite He, Hp, Hw. }
  unfold websocket_endpoint, connect, disconnect. rewrite Hacc.
  destruct (try_body t ws fuel) as [[e|] body]; cbn [fst snd] in *;
    rewrite !sends_of_type_app, !received_texts_app, !idle_timeouts_app,
      !echo_timeouts_app, !length_app, !map_app;
    destruct Hbody as (-> & -> & ->); unfold sends_of_type; simpl;
    rewrite ?app_nil_r; split_and!; try done; lia.
Qed.

Lemma replies_match_receives_witness :
  Session.accept_result hello_then_broken = None ∧
  received_texts (websocket_endpoint hello_then_broken 7 5 ∅).2 = ["hello"%string] ∧
  map (get "message") (sends_of_type "echo" (websocket_endpoint hello_then_broken 7 5 ∅).2)
    = [Some (JStr "Server received: hello")].
Proof.
  split; [reflexivity|].
  destruct (replies_match_receives hello_then_broken 7 5 ∅ eq_refl) as (_ & He & _).
  assert (Ht : received_texts (websocket_endpoint hello_then_broken 7 5 ∅).2
               = ["hello"%string]) by (by vm_compute).
  split; [exact Ht|]. rewrite He, Ht. reflexivity.
Defined.

End session_more.

(** ** More on the shutdown coordinator *)

Section shutdown_more.

Import GracefulShutdownManager.

Implicit Types (o : observations) (timeout start : Z) (fuel k : nat).

(** What the loop does up to its exit in iteration [k]: it reads the count
    and sleeps five seconds, once for each iteration before [k], then reads
    the count once more. *)
Lemma poll_loop_trace o timeout start fuel k0 path k evs :
  poll_loop o timeout start fuel k0 = (Some (Returns path, k), evs) →
  k0 ≤ k ∧
  evs = flat_map (λ j, [ReadCount (connection_count o j); Sleep 5]) (seq k0 (k - k0))
        ++ [ReadCount (connection_count o k)].
Proof.
  revert k0 evs. induction fuel as [|fuel IH]; intros k0 evs; simpl; [done|].
  destruct (timedelta (timeout - (now o (S k0) - start))); [|done].
  destruct (decide (connection_count o k0 = 0)).
  { intros [= <- <-]. by rewrite Nat.sub_diag. }
  destruct (decide (timeout ≤ now o (S k0) - start)%Z).
  { intros [= <- <-]. by rewrite Nat.sub_diag. }
  destruct (sleep_result o k0); [done|].
  destruct (poll_loop o timeout start fuel (S k0)) as [[[r' k']|] evs'] eqn:Hrec;
    [|done].
  intros [= -> -> <-]. destruct (IH (S k0) evs' Hrec) as [Hle ->].
  split; [lia|]. replace (k - k0) with (S (k - S k0)) by lia. done.
Qed.

(** The same for a loop that an exception leaves in iteration [k]: the
    iterations before went on to their sleep, which returned; in iteration
    [k] either the remaining time is no [timedelta], or the sleep raised. *)
Lemma poll_loop_raised o timeout start fuel k0 e k evs :
  poll_loop o timeout start fuel k0 = (Some (Raises e, k), evs) →
  k0 ≤ k ∧
  (∀ j, k0 ≤ j → j < k →
     connection_count o j ≠ 0 ∧ (now o (S j) - start < timeout)%Z ∧
     sleep_result o j = None) ∧
  ((timeout - (now o (S k) - start) < -86399999913600000000 ∨
    86399999999999999999 < timeout - (now o (S k) - start))%Z ∧
   e = OverflowError ∧
   evs = flat_map (λ j, [ReadCount (connection_count o j); Sleep 5]) (seq k0 (k - k0))
         ++ [ReadCount (connection_count o k)]
   ∨
   connection_count o k ≠ 0 ∧ (now o (S k) - start < timeout)%Z ∧
   sleep_result o k = Some e ∧
   evs = flat_map (λ j, [ReadCount (connection_count o j); Sleep 5]) (seq k0 (k - k0))
         ++ [ReadCount (connection_count o k); Sleep 5]).
Proof.
  revert k0 evs. induction fuel as [|fuel IH]; intros k0 evs; simpl; [done|].
  destruct (timedelta_cases (timeout - (now o (S k0) - start))) as [[Hin ->]|[Hout ->]].
  - destruct (decide (connection_count o k0 = 0)); [done|].
    destruct (decide (timeout ≤ now o (S k0) - start)%Z); [done|].
    destruct (sleep_result o k0) as [e'|] eqn:Hs.
    { intros [= <- <- <-]. rewrite Nat.sub_diag.
      split_and!; [done|intros; lia|]. right. split_and!; [done|lia|done|done]. }
    destruct (poll_loop o timeout start fuel (S k0)) as [[[r' k']|] evs'] eqn:Hrec;
      [|done].
    intros [= -> -> <-]. destruct (IH (S k0) evs' Hrec) as (Hle & Hbefore & Hexit).
    replace (k - k0) with (S (k - S k0)) by lia.
    split_and!; [lia| |].
    + intros j Hj Hjk. destruct (decide (j = k0)) as [->|Hne].
      * split_and!; [done|lia|done].
      * apply Hbefore; lia.
    + destruct Hexit as [(? & ? & ->)|(? & ? & ? & ->)]; [left|right]; done.
  - intros [= <- <- <-]. rewrite Nat.sub_diag.
    split_and!; [done|intros; lia|]. left. done.
Qed.

(** A wait that has returned: either shutdown was not initiated and nothing
    was done, or the loop was left in some iteration [k] after [k] sleeps of
    five seconds, the event was set as the last thing, and the timeout and
    the flag are as they were.  The wait changes no connection. *)
Theorem wait_for_shutdown_trace self o fuel self' exit trace :
  wait_for_shutdown self o fuel = (Some (self', Returns exit), trace) →
  Forall (λ ev, is_mutation ev = false ∧ Tasks.is_transport_io ev = false) trace ∧
  timeout_minutes self' = timeout_minutes self ∧
  shutdown_initiated self' = shutdown_initiated self ∧
  match exit with
  | None =>
      shutdown_initiated self = false ∧ trace = [] ∧ self' = self
  | Some (path, k) =>
      shutdown_initiated self = true ∧ shutdown_event self' = true ∧
      trace = flat_map (λ j, [ReadCount (connection_count o j); Sleep 5]) (seq 0 k)
              ++ [ReadCount (connection_count o k); SetEvent] ∧
      occurrences (Sleep 5) trace = k ∧
      occurrences SetEvent trace = 1
  end.
Proof.
  unfold wait_for_shutdown. destruct (shutdown_initiated self) eqn:Hinit; simpl.
  - destruct (minutes (timeout_minutes self)) as [timeout|e]; [|done].
    destruct (poll_loop o timeout (now o 0) fuel 0)
      as [[[[path|e] k]|] evs] eqn:Hloop; [|done..].
    intros [= <- <- <-]. destruct (poll_loop_trace _ _ _ _ _ _ _ _ Hloop) as [_ ->].
    rewrite Nat.sub_0_r.
    assert (Hshape : ∀ k0 n,
      Forall (λ ev, is_mutation ev = false ∧ Tasks.is_transport_io ev = false)
        (flat_map (λ j, [ReadCount (connection_count o j); Sleep 5]) (seq k0 n)) ∧
      occurrences (Sleep 5)
        (flat_map (λ j, [ReadCount (connection_count o j); Sleep 5]) (seq k0 n)) = n ∧
      occurrences SetEvent
        (flat_map (λ j, [ReadCount (connection_count o j); Sleep 5]) (seq k0 n)) = 0).
    { intros k0 n. revert k0. induction n as [|n IHn]; intros k0; simpl.
      - by split_and!.
      - destruct (IHn (S k0)) as (Hf & Hs & He). split_and!.
        + by repeat constructor.
        + rewrite !occurrences_cons, Hs. by repeat case_decide.
        + rewrite !occurrences_cons, He. by repeat case_decide. }
    destruct (Hshape 0 k) as (Hf & Hs & He).
    rewrite <- (assoc_L (++)). cbn [app].
    split_and!; try done.
    + apply Forall_app. split; [done|]. by repeat constructor.
    + rewrite occurrences_app, Hs, !occurrences_cons, occurrences_nil.
      repeat case_decide; try done; lia.
    + rewrite occurrences_app, He, !occurrences_cons, occurrences_nil.
      repeat case_decide; try done; lia.
  - intros [= <- <- <-]. by split_and!.
Qed.

Lemma wait_for_shutdown_trace_witness :
  ∃ self' trace,
    wait_for_shutdown shutting_down drained_by_second_poll 3
      = (Some (self', Returns (Some (Graceful, 1))), trace) ∧
    trace = [ReadCount 3; Sleep 5; ReadCount 0; SetEvent].
Proof.
  destruct (wait_for_shutdown shutting_down drained_by_second_poll 3)
    as [[[self' exit]|] trace] eqn:Hrun; [|by vm_compute in Hrun].
  assert (Hexit : exit = Returns (Some (Graceful, 1))).
  { revert Hrun. vm_compute. by intros [= _ <- _]. }
  subst exit.
  destruct (wait_for_shutdown_trace _ _ _ _ _ _ Hrun) as (_ & _ & _ & _ & _ & Ht & _).
  exists self', trace. split; [done|]. rewrite Ht. reflexivity.
Defined.

(** With a timeout of zero minutes or less and a clock that does not run
    backwards, a wait on an initiated shutdown never sleeps.  If
    [timedelta(minutes=...)] accepts the timeout and the remaining time of
    the first iteration is a [timedelta], it reads the count once, takes the
    graceful exit if the count is zero and the forced one otherwise, and sets
    the event.  If the timeout is below what [timedelta] accepts,
    [OverflowError] leaves the wait before the count is read; if the
    remaining time is, it leaves after the count is read; in both cases the
    manager is as it was and the event is not set. *)
Theorem no_wait_without_timeout self o fuel :
  let timeout := (timeout_minutes self * 60 * 1000000)%Z in
  let remaining := (timeout - (now o 1 - now o 0))%Z in
  let count := connection_count o 0 in
  shutdown_initiated self = true →
  (timeout_minutes self ≤ 0)%Z →
  (now o 0 ≤ now o 1)%Z →
  wait_for_shutdown self o (S fuel) =
    if decide (timeout_minutes self < -1439999998560)%Z then
      (Some (self, Raises OverflowError), [])
    else if decide (remaining < -86399999913600000000)%Z then
      (Some (self, Raises OverflowError), [ReadCount count])
    else
      (Some ({| timeout_minutes := timeout_minutes self;
                shutdown_initiated := true;
                shutdown_event := true |},
             Returns (Some (if decide (count = 0) then Graceful else Forced, 0))),
       [ReadCount count; SetEvent]).
Proof.
  intros timeout remaining count Hinit Hneg Hclock.
  unfold wait_for_shutdown. rewrite Hinit. simpl negb. cbv iota.
  destruct (decide (timeout_minutes self < -1439999998560)%Z) as [Hlow|Hlow].
  { rewrite minutes_raises by (by left). done. }
  rewrite minutes_returns by lia.
  replace (timeout_minutes self * 60000000)%Z with timeout by (subst timeout; lia).
  cbn [poll_loop]. fold remaining count.
  destruct (decide (remaining < -86399999913600000000)%Z) as [Hrem|Hrem].
  { rewrite timedelta_raises by (by left). done. }
  rewrite timedelta_returns by (subst remaining timeout; lia).
  destruct (decide (count = 0)); [done|].
  rewrite decide_True by (subst timeout; lia). done.
Qed.

Lemma no_wait_without_timeout_witness :
  shutdown_initiated impatient = true ∧
  (timeout_minutes impatient ≤ 0)%Z ∧
  (now stubborn_client 0 ≤ now stubborn_client 1)%Z ∧
  wait_for_shutdown impatient stubborn_client 1 =
    (Some ({| timeout_minutes := 0; shutdown_initiated := true;
              shutdown_event := true |}, Returns (Some (Forced, 0))),
     [ReadCount 1; SetEvent]).
Proof.
  assert (H2 : (timeout_minutes impatient ≤ 0)%Z) by done.
  assert (H3 : (now stubborn_client 0 ≤ now stubborn_client 1)%Z) by done.
  split; [reflexivity|]. split; [exact H2|]. split; [exact H3|].
  rewrite (no_wait_without_timeout impatient stubborn_client 0 eq_refl H2 H3).
  reflexivity.
Defined.

(** A timeout that [timedelta(minutes=...)] does not accept, 1440000000000
    minutes or more, or less than -1439999998560: [OverflowError] leaves the
    wait on an initiated shutdown at once, whatever the connections and the
    clock.  No count is read, the manager is as it was and the event is not
    set. *)
Theorem wait_for_shutdown_overflow self o fuel :
  shutdown_initiated self = true →
  (timeout_minutes self < -1439999998560 ∨ 1439999999999 < timeout_minutes self)%Z →
  wait_for_shutdown self o fuel = (Some (self, Raises OverflowError), []).
Proof.
  intros Hinit Hout. unfold wait_for_shutdown. rewrite Hinit. simpl.
  by rewrite minutes_raises.
Qed.

Lemma wait_for_shutdown_overflow_witness :
  shutdown_initiated overlong = true ∧
  (timeout_minutes overlong < -1439999998560 ∨
   1439999999999 < timeout_minutes overlong)%Z ∧
  wait_for_shutdown overlong drained_by_second_poll 3
    = (Some (overlong, Raises OverflowError), []) ∧
  shutdown_event overlong = false.
Proof.
  assert (Hout : (timeout_minutes overlong < -1439999998560 ∨
                  1439999999999 < timeout_minutes overlong)%Z) by (by right).
  split; [reflexivity|]. split; [exact Hout|]. split; [|reflexivity].
  exact (wait_for_shutdown_overflow overlong drained_by_second_poll 3 eq_refl Hout).
Defined.

(** A wait that an exception has left.  The manager is as it was: the event
    is not set.  The exception is the [OverflowError] of
    [timedelta(minutes=...)], raised before any count is read; or the
    [OverflowError] of [timeout - elapsed] in some iteration [k], after the
    count is read; or what the sleep of iteration [k] raised, such as the
    cancellation of the waiting task.  All iterations before [k] saw a
    connection, saw the timeout not reached, and slept. *)
Theorem wait_for_shutdown_raises self o fuel self' e trace :
  let timeout := (timeout_minutes self * 60 * 1000000)%Z in
  let elapsed := λ k, (now o (S k) - now o 0)%Z in
  let polls := λ k,
    flat_map (λ j, [ReadCount (connection_count o j); Sleep 5]) (seq 0 k) in
  wait_for_shutdown self o fuel = (Some (self', Raises e), trace) →
  self' = self ∧
  shutdown_initiated self = true ∧
  occurrences SetEvent trace = 0 ∧
  ((timeout_minutes self < -1439999998560 ∨ 1439999999999 < timeout_minutes self)%Z ∧
   e = OverflowError ∧ trace = []
   ∨
   (-1439999998560 ≤ timeout_minutes self ≤ 1439999999999)%Z ∧
   ∃ k,
     (∀ j, j < k →
        connection_count o j ≠ 0 ∧ (elapsed j < timeout)%Z ∧
        sleep_result o j = None) ∧
     ((timeout - elapsed k < -86399999913600000000 ∨
       86399999999999999999 < timeout - elapsed k)%Z ∧
      e = OverflowError ∧
      trace = polls k ++ [ReadCount (connection_count o k)]
      ∨
      connection_count o k ≠ 0 ∧ (elapsed k < timeout)%Z ∧
      sleep_result o k = Some e ∧
      trace = polls (S k))).
Proof.
  intros timeout elapsed polls.
  assert (Hpolls : ∀ k0 n, occurrences SetEvent
            (flat_map (λ j, [ReadCount (connection_count o j); Sleep 5]) (seq k0 n)) = 0).
  { intros k0 n. revert k0. induction n as [|n IHn]; intros k0; simpl; [done|].
    rewrite !occurrences_cons, IHn. by repeat case_decide. }
  unfold wait_for_shutdown. destruct (shutdown_initiated self) eqn:Hinit; simpl; [|done].
  destruct (decide (-1439999998560 ≤ timeout_minutes self ≤ 1439999999999)%Z)
    as [Hrange|Hrange].
  - rewrite minutes_returns by done.
    replace (timeout_minutes self * 60000000)%Z with timeout by (subst timeout; lia).
    destruct (poll_loop o timeout (now o 0) fuel 0)
      as [[[[path|e'] k]|] evs] eqn:Hloop; [done| |done].
    intros [= <- <- <-].
    destruct (poll_loop_raised _ _ _ _ _ _ _ _ Hloop) as (_ & Hbefore & Hexit).
    rewrite Nat.sub_0_r in Hexit.
    assert (Hk : ∀ j, j < k →
              connection_count o j ≠ 0 ∧ (elapsed j < timeout)%Z ∧
              sleep_result o j = None).
    { intros j Hj. apply Hbefore; lia. }
    destruct Hexit as [(Hrem & -> & ->)|(Hc & Ht & Hs & ->)].
    + split_and!; [done|done| |].
      * rewrite occurrences_app, Hpolls, occurrences_cons, occurrences_nil.
        by case_decide.
      * right. split; [done|]. exists k. split; [done|]. by left.
    + split_and!; [done|done| |].
      * rewrite occurrences_app, Hpolls, !occurrences_cons, occurrences_nil.
        by repeat case_decide.
      * right. split; [done|]. exists k. split; [done|]. right.
        split_and!; [done|done|done|].
        subst polls. cbv beta. by rewrite seq_S, flat_map_app.
  - rewrite minutes_raises by lia. intros [= <- <- <-].
    split_and!; [done|done|done|]. left. split_and!; [lia|done|done].
Qed.

Lemma wait_for_shutdown_raises_witness :
  wait_for_shutdown shutting_down cancelled_in_second_sleep 5
    = (Some (shutting_down, Raises CancelledError),
       [ReadCount 1; Sleep 5; ReadCount 1; Sleep 5]) ∧
  shutdown_event shutting_down = false ∧
  occurrences SetEvent [ReadCount 1; Sleep 5; ReadCount 1; Sleep 5] = 0.
Proof.
  assert (Hrun : wait_for_shutdown shutting_down cancelled_in_second_sleep 5
                 = (Some (shutting_down, Raises CancelledError),
                    [ReadCount 1; Sleep 5; ReadCount 1; Sleep 5]))
    by (by vm_compute).
  split; [exact Hrun|]. split; [reflexivity|].
  destruct (wait_for_shutdown_raises _ _ _ _ _ _ Hrun) as (_ & _ & Hev & _).
  exact Hev.
Defined.

(** What one wait does to the manager. *)
Lemma wait_for_shutdown_manager self o fuel self' exit :
  (wait_for_shutdown self o fuel).1 = Some (self', exit) →
  timeout_minutes self' = timeout_minutes self ∧
  shutdown_initiated self' = shutdown_initiated self ∧
  (shutdown_event self = true → shutdown_event self' = true) ∧
  (shutdown_event self' = true →
     shutdown_event self = true ∨ shutdown_initiated self = true).
Proof.
  unfold wait_for_shutdown. destruct (shutdown_initiated self) eqn:Hinit; simpl.
  - destruct (minutes (timeout_minutes self)) as [timeout|e].
    + destruct (poll_loop o timeout (now o 0) fuel 0)
        as [[[[path|e] k]|] evs]; [| |done].
      * intros [= <- <-]. simpl. split_and!; [done|done|done|by right].
      * intros [= <- <-]. split_and!; [done|done|done|by right].
    + intros [= <- <-]. split_and!; [done|done|done|by right].
  - intros [= <- <-]. split_and!; [done|done|done|by left].
Qed.

(** The flag of the manager is one-way and the event follows it: over any
    sequence of [initiate_shutdown] and [wait_for_shutdown] calls the timeout
    is never changed, the flag is set exactly if it was set or
    [initiate_shutdown] was called, an event that is set stays set, and the
    event is set only if it was set before or the flag is set. *)
Theorem shutdown_flag_is_one_way cs self :
  timeout_minutes (run_manager cs self) = timeout_minutes self ∧
  (shutdown_initiated (run_manager cs self) = true ↔
     shutdown_initiated self = true ∨ InitiateShutdown ∈ cs) ∧
  (shutdown_event self = true → shutdown_event (run_manager cs self) = true) ∧
  (shutdown_event (run_manager cs self) = true →
     shutdown_event self = true ∨ shutdown_initiated (run_manager cs self) = true).
Proof.
  revert self. induction cs as [|c cs IH]; intros self.
  - simpl. split_and!; [done| |done|by left].
    split; [by left|]. by intros [?|?%elem_of_nil].
  - assert (Hcons : ∀ next,
      timeout_minutes next = timeout_minutes self →
      (shutdown_initiated next = true ↔
         shutdown_initiated self = true ∨ c = InitiateShutdown) →
      (shutdown_event self = true → shutdown_event next = true) →
      (shutdown_event next = true →
         shutdown_event self = true ∨ shutdown_initiated next = true) →
      timeout_minutes (run_manager cs next) = timeout_minutes self ∧
      (shutdown_initiated (run_manager cs next) = true ↔
         shutdown_initiated self = true ∨ InitiateShutdown ∈ c :: cs) ∧
      (shutdown_event self = true → shutdown_event (run_manager cs next) = true) ∧
      (shutdown_event (run_manager cs next) = true →
         shutdown_event self = true ∨ shutdown_initiated (run_manager cs next) = true)).
    { intros next Ht1 Hf1 He1 He1'.
      destruct (IH next) as (Ht & Hf & He & He').
      split_and!.
      - by rewrite Ht.
      - rewrite Hf, Hf1, elem_of_cons. naive_solver.
      - intros Hev. by apply He, He1.
      - intros Hev. destruct (He' Hev) as [Hev'|Hini]; [|by right].
        destruct (He1' Hev') as [?|Hini]; [by left|right].
        apply Hf. by left. }
    destruct c as [|o fuel]; simpl.
    + apply Hcons; simpl; [done| |done|by left]. split; [by right|done].
    + destruct ((wait_for_shutdown self o fuel).1) as [[self' exit]|] eqn:Hrun.
      * destruct (wait_for_shutdown_manager _ _ _ _ _ Hrun) as (Ht1 & Hf1 & He1 & He1').
        apply Hcons; [done| |done|].
        -- rewrite Hf1. split; [by left|]. by intros [?|[=]].
        -- intros Hev. destruct (He1' Hev) as [?|?]; [by left|right; congruence].
      * apply Hcons; [done| |done|by left].
        split; [by left|]. by intros [?|[=]].
Qed.

Lemma shutdown_flag_is_one_way_witness :
  shutdown_event
    (run_manager [WaitForShutdown drained_by_second_poll 3; InitiateShutdown;
                  WaitForShutdown drained_by_second_poll 3] shutdown_manager) = true ∧
  shutdown_initiated
    (run_manager [WaitForShutdown drained_by_second_poll 3; InitiateShutdown;
                  WaitForShutdown drained_by_second_poll 3] shutdown_manager) = true.
Proof.
  assert (Hev : shutdown_event
    (run_manager [WaitForShutdown drained_by_second_poll 3; InitiateShutdown;
                  WaitForShutdown drained_by_second_poll 3] shutdown_manager) = true)
    by (by vm_compute).
  split; [exact Hev|].
  destruct (shutdown_flag_is_one_way
              [WaitForShutdown drained_by_second_poll 3; InitiateShutdown;
               WaitForShutdown drained_by_second_poll 3] shutdown_manager)
    as (_ & _ & _ & Hflag).
  destruct (Hflag Hev) as [Hno|Hyes]; [by vm_compute in Hno|exact Hyes].
Defined.

End shutdown_more.

(** ** More on the notification scheduler *)

Section scheduler_more.

Import ConnectionManager Broadcaster.

Implicit Types (its : list iteration) (active : gset nat).

(** As long as the flag is not seen and nothing is cancelled the scheduler
    stays in its loop, whatever else the sleeps and the sends raise; it has
    then made one tick for each iteration whose sleep returned, and its
    counter has advanced by that number. *)
Theorem broadcaster_survives_errors counter its active :
  (∀ it, it ∈ its →
     shutdown_initiated it = false ∧
     (∀ e, sleep_result it = Some e → is_Exception e = true) ∧
     (∀ h e, send_json_result it h = Some e → is_Exception e = true)) →
  let run := notification_broadcaster counter its active in
  run.1.1.1 = Looping ∧
  run.1.1.2 = counter + length run.2 ∧
  length run.2 = length (filter (λ it, sleep_result it = None) its).
Proof.
  revert counter active. induction its as [|it its IH]; intros counter active Hok.
  - simpl. split_and!; [done|lia|done].
  - assert (Hrest : ∀ it', it' ∈ its →
              shutdown_initiated it' = false ∧
              (∀ e, sleep_result it' = Some e → is_Exception e = true) ∧
              (∀ h e, send_json_result it' h = Some e → is_Exception e = true)).
    { intros it' Hin. apply Hok. by right. }
    destruct (Hok it) as (Hflag & Hsleep & Hsend); [by left|].
    cbv zeta. cbn [notification_broadcaster]. rewrite Hflag.
    destruct (sleep_result it) as [e|] eqn:Hs.
    + rewrite (Hsleep e eq_refl). rewrite filter_cons_False by congruence.
      by apply IH.
    + rewrite filter_cons_True by done.
      rewrite broadcast_returns by (intros h e _; apply Hsend).
      specialize (IH (counter + 1) (churn it active ∖ failing (send_json_result it)
                                      (churn it active)) Hrest).
      cbv zeta in IH.
      destruct (notification_broadcaster (counter + 1) its
                  (churn it active ∖ failing (send_json_result it) (churn it active)))
        as [[[st c] a] ticks].
      simpl in *. destruct IH as (-> & -> & ->). split_and!; [done|lia|done].
Qed.

Lemma broadcaster_survives_errors_witness :
  (∀ it, it ∈ [sleep_raises RuntimeError] ++ take 2 three_iterations →
     shutdown_initiated it = false ∧
     (∀ e, sleep_result it = Some e → is_Exception e = true) ∧
     (∀ h e, send_json_result it h = Some e → is_Exception e = true)) ∧
  (notification_broadcaster 0 ([sleep_raises RuntimeError] ++ take 2 three_iterations)
     {[1; 2]}).1.1 = (Looping, 2).
Proof.
  assert (H : ∀ it, it ∈ [sleep_raises RuntimeError] ++ take 2 three_iterations →
     shutdown_initiated it = false ∧
     (∀ e, sleep_result it = Some e → is_Exception e = true) ∧
     (∀ h e, send_json_result it h = Some e → is_Exception e = true)).
  { intros it Hin. simpl in Hin. set_unfold.
    destruct Hin as [->|[->|[->|[]]]]; simpl; (split_and!; [done| |]).
    - by intros e [= <-].
    - done.
    - done.
    - intros h e. unfold send_fails_on_2. case_decide; [|done]. by intros [= <-].
    - done.
    - done. }
  split; [exact H|].
  destruct (broadcaster_survives_errors 0 _ {[1; 2]} H) as (Hst & Hc & Hn).
  rewrite Hn in Hc.
  destruct (notification_broadcaster 0
              ([sleep_raises RuntimeError] ++ take 2 three_iterations) {[1; 2]})
    as [[[st c] a] ticks].
  simpl in *. by rewrite Hst, Hc.
Defined.

(** Once the loop test has seen the flag, or a sleep has been cancelled, the
    scheduler is out of its loop: that iteration makes no tick and does not
    advance the counter, and nothing that would have followed matters. *)
Theorem broadcaster_stops counter pre it post active :
  shutdown_initiated it = true ∨
  (∃ e, sleep_result it = Some e ∧ is_Exception e = false) →
  let run := notification_broadcaster counter (pre ++ it :: post) active in
  run = notification_broadcaster counter (pre ++ [it]) active ∧
  run.1.1.1 ≠ Looping ∧
  length run.2 ≤ length pre ∧
  run.1.1.2 = counter + length run.2.
Proof.
  intros Hstop. cbv zeta. revert counter active.
  induction pre as [|it0 pre IH]; intros counter active.
  - cbn [app notification_broadcaster].
    destruct (shutdown_initiated it) eqn:Hflag.
    + simpl. split_and!; [done|done|lia|lia].
    + destruct Hstop as [[=]|(e & -> & ->)]. simpl. split_and!; [done|done|lia|lia].
  - cbn [app notification_broadcaster].
    destruct (shutdown_initiated it0).
    { simpl. split_and!; [done|done|lia|lia]. }
    destruct (sleep_result it0) as [e|].
    { destruct (is_Exception e).
      - destruct (IH counter (churn it0 active)) as (Heq & Hst & Hlen & Hc).
        split_and!; [done|done|simpl; lia|done].
      - simpl. split_and!; [done|done|lia|lia]. }
    assert (Hnext : ∀ a tk,
      (let '(s, c, a', ticks) :=
         notification_broadcaster (counter + 1) (pre ++ it :: post) a in
       (s, c, a', tk :: ticks)) =
      (let '(s, c, a', ticks) :=
         notification_broadcaster (counter + 1) (pre ++ [it]) a in
       (s, c, a', tk :: ticks)) ∧
      (let '(s, c, a', ticks) :=
         notification_broadcaster (counter + 1) (pre ++ it :: post) a in
       (s, c, a', tk :: ticks)).1.1.1 ≠ Looping ∧
      length (let '(s, c, a', ticks) :=
                notification_broadcaster (counter + 1) (pre ++ it :: post) a in
              (s, c, a', tk :: ticks)).2 ≤ S (length pre) ∧
      (let '(s, c, a', ticks) :=
         notification_broadcaster (counter + 1) (pre ++ it :: post) a in
       (s, c, a', tk :: ticks)).1.1.2 =
        counter + length (let '(s, c, a', ticks) :=
                notification_broadcaster (counter + 1) (pre ++ it :: post) a in
              (s, c, a', tk :: ticks)).2).
    { intros a tk. destruct (IH (counter + 1) a) as (Heq & Hst & Hlen & Hc).
      rewrite <- Heq.
      destruct (notification_broadcaster (counter + 1) (pre ++ it :: post) a)
        as [[[st c] a'] ticks].
      simpl in *. split_and!; [done|done|lia|lia]. }
    destruct (broadcast (send_json_result it0)
                (notification (counter + 1) (now_isoformat it0)
                   (connection_count (churn it0 active))) (churn it0 active))
      as [[[u|e] a] evs].
    + apply Hnext.
    + destruct (is_Exception e); [apply Hnext|].
      simpl. split_and!; [done|done|lia|lia].
Qed.

Lemma broadcaster_stops_witness :
  (shutdown_initiated (sleep_raises CancelledError) = true ∨
   (∃ e, sleep_result (sleep_raises CancelledError) = Some e ∧ is_Exception e = false)) ∧
  (notification_broadcaster 0
     (take 1 three_iterations ++ sleep_raises CancelledError :: three_iterations)
     {[1; 2]}).1.1 = (Cancelled, 1).
Proof.
  assert (H : shutdown_initiated (sleep_raises CancelledError) = true ∨
    (∃ e, sleep_result (sleep_raises CancelledError) = Some e ∧ is_Exception e = false)).
  { right. by exists CancelledError. }
  split; [exact H|].
  destruct (broadcaster_stops 0 (take 1 three_iterations)
              (sleep_raises CancelledError) three_iterations {[1; 2]} H) as (-> & _).
  by vm_compute.
Defined.

End scheduler_more.
